(** * polar.py: polar curve sampling and the animation state machine

    A shallow embedding of [polar.py] (the module-level [polar_animator]
    with its closures [init] and [animate], the five example functions and
    the class [PolarEquationApp]) together with the properties its
    specification states about it.

    Conventions of the embedding.
    - Python and numpy floats are read as real numbers ([R]); [np.pi] is
      [PI], [np.cos] is [cos], [abs] and [np.abs] are [Rabs].  Rounding is
      not modelled.
    - A line artist of matplotlib is the pair of coordinate lists given to
      [plot] or [set_data]; an axes is the record of its artists.  Text
      artists (angle, equation and coefficient read-outs) only format
      numbers into strings and are left out, as are colours, fonts, widget
      layout and window geometry strings other than the two the class
      stores.
    - Exceptions are explicit: a computation that may raise returns a
      [result].
    - numpy and matplotlib are libraries, not code of this repository;
      [linspace] and the stepping of [FuncAnimation] follow their
      documented behaviour and say so where they are defined. *)

From Stdlib Require Import Reals Lra Lia.
From stdpp Require Import base list strings gmap.

Open Scope R_scope.

(** ** Exceptions *)

Inductive exn :=
  | KeyError (key : string)
  | ValueError.

Inductive result (A : Type) :=
  | Ok (a : A)
  | Raise (e : exn).
Arguments Ok {A} a.
Arguments Raise {A} e.

#[global] Instance result_ret : MRet result := fun _ a => Ok a.
#[global] Instance result_bind : MBind result := fun _ _ f m =>
  match m with
  | Ok a => f a
  | Raise e => Raise e
  end.

(** [try: body except Exception: handler]. *)
Definition try_except {A} (body : result A) (handler : A) : A :=
  match body with
  | Ok a => a
  | Raise _ => handler
  end.

(** A function of the angle, as Python passes it around: calling it may
    raise.  [pure_fn f] is a Python function that computes [f] and never
    raises. *)
Definition pyfun := R -> result R.
Definition pure_fn (f : R -> R) : pyfun := fun theta => Ok (f theta).

(** ** numpy and builtins *)

(** [np.linspace(start, stop, num)] with the default [endpoint=True]:
    [num] evenly spaced samples, [step = (stop - start) / (num - 1)],
    sample [k] is [k * step + start]; the last one is [stop]. *)
Definition linspace (start stop : R) (num : nat) : list R :=
  (fun k : nat => INR k * ((stop - start) / INR (num - 1)) + start) <$> seq 0 num.

Arguments linspace : simpl never.

(** The builtins [min] and [max] on a list: [ValueError] on an empty one. *)
Definition py_min (l : list R) : result R :=
  match l with
  | [] => Raise ValueError
  | x :: l' => Ok (foldl Rmin x l')
  end.

Definition py_max (l : list R) : result R :=
  match l with
  | [] => Raise ValueError
  | x :: l' => Ok (foldl Rmax x l')
  end.

(** ** Curve sampler *)

Definition xydata : Type := list R * list R.

(** The loop shared by [animate] (lines 147-157) and [update_static_plot]
    (lines 438-447):
<<
    for t, r in zip(thetas, rs):
        if r >= 0:
            curve_thetas.append(t); curve_rs.append(r)
        else:
            curve_thetas.append(t + np.pi); curve_rs.append(abs(r))
>>
    with the two lists it appends to as accumulators. *)
Fixpoint normalize_loop (pts : list (R * R)) (curve_thetas curve_rs : list R) : xydata :=
  match pts with
  | [] => (curve_thetas, curve_rs)
  | (t, r) :: pts' =>
      if Rge_dec r 0
      then normalize_loop pts' (curve_thetas ++ [t]) (curve_rs ++ [r])
      else normalize_loop pts' (curve_thetas ++ [t + PI]) (curve_rs ++ [Rabs r])
  end.

(** Sampling and normalisation as both call sites do it:
<<
    thetas = np.linspace(theta_start, theta_end, resolution)
    rs = [f(t) for t in thetas]
    curve_thetas = []; curve_rs = []
    for t, r in zip(thetas, rs): ...
>>
    [animate] calls it on [(0, theta, 100)], [update_static_plot] on
    [(0, 2*np.pi, 1000)]. *)
Definition sample (f : pyfun) (theta_start theta_end : R) (resolution : nat)
  : result xydata :=
  let thetas := linspace theta_start theta_end resolution in
  rs ← mapM f thetas;
  mret (normalize_loop (zip thetas rs) [] []).

(** The point a polar plot draws for the pair [(theta, r)]. *)
Definition cartesian (p : R * R) : R * R :=
  (p.2 * cos p.1, p.2 * sin p.1).

(** ** The example functions *)

Definition circle (theta : R) : R := 2.
Definition cardioid (theta : R) : R := 2 * (1 + cos theta).
Definition rose (theta : R) : R := 3 * cos (3 * theta).
Definition spiral (theta : R) : R := 0.5 * theta.
Definition limacon (theta : R) : R := 2 + 1 * cos theta.

(** ** polar_animator *)

(** The artists of the polar axes that [polar_animator] creates. *)
Record Artists := {
  ylim : R * R;
  full_curve : xydata;
  line_trace : xydata;
  point : xydata;
  opposite_point : xydata;
  ray : xydata;
  opposite_ray : xydata;
  rays_collection : list xydata;
  drawn_curve : xydata;
}.

Section Animator.
Variable polar_function : pyfun.
Variable frames : nat.

(** Lines 36-91: the axes before the animation runs.  [max_r] is
    [ax.get_ylim()[1]], the upper limit set two lines earlier. *)
Definition create_artists : result Artists :=
  r_values ← mapM polar_function (linspace 0 (2 * PI) 1000);
  lo ← py_min r_values;
  hi ← py_max r_values;
  let ylim := (0, 1.1 * Rmax (Rabs lo) (Rabs hi)) in
  let theta_full := linspace 0 (2 * PI) 1000 in
  r_full ← mapM polar_function theta_full;
  let theta_trace := linspace 0 0 2 in
  r0 ← polar_function 0;
  let r_trace := [0; r0] in
  r0' ← polar_function 0;
  let max_r := ylim.2 in
  mret {| ylim := ylim;
          full_curve := (theta_full, Rabs <$> r_full);
          line_trace := (theta_trace, r_trace);
          point := ([0], [r0']);
          opposite_point := ([], []);
          ray := ([0; 0], [0; max_r]);
          opposite_ray := ([0; 0], [0; max_r]);
          rays_collection := [];
          drawn_curve := ([], []) |}.

(** The closure [init] (lines 93-104). *)
Definition init (a : Artists) : result Artists :=
  let max_r := (ylim a).2 in
  r0 ← polar_function 0;
  r0' ← polar_function 0;
  mret {| ylim := ylim a;
          full_curve := full_curve a;
          line_trace := ([0; 0], [0; r0]);
          point := ([0], [r0']);
          opposite_point := ([], []);
          ray := ([0; 0], [0; max_r]);
          opposite_ray := ([0; PI], [0; max_r]);
          rays_collection := rays_collection a;
          drawn_curve := ([], []) |}.

(** The current angle of frame [i] (line 108). *)
Definition frame_theta (i : nat) : R := 2 * PI * INR i / INR frames.

(** The closure [animate] (lines 106-172). *)
Definition animate (i : nat) (a : Artists) : result Artists :=
  let max_r := (ylim a).2 in
  let theta := frame_theta i in
  r ← polar_function theta;
  let ray' := ([0; theta], [0; max_r]) in
  let opposite_theta := theta + PI in
  let opposite_ray' := ([0; opposite_theta], [0; max_r]) in
  let rays_collection' :=
    if decide (i `mod` 10 = 0)%nat
    then rays_collection a ++ [([0; theta], [0; max_r])]
    else rays_collection a in
  let '(point', opposite_point') :=
    if Rge_dec r 0
    then (([theta], [r]), ([], []))
    else (([theta + PI], [Rabs r]), ([theta], [0])) in
  curve ← sample polar_function 0 theta 100;
  mret {| ylim := ylim a;
          full_curve := full_curve a;
          line_trace := line_trace a;
          point := point';
          opposite_point := opposite_point';
          ray := ray';
          opposite_ray := opposite_ray';
          rays_collection := rays_collection';
          drawn_curve := curve |}.
End Animator.

(** ** matplotlib's FuncAnimation

    [animation.FuncAnimation(fig, animate, frames=frames, init_func=init,
    interval=interval, blit=False)] as far as the program observes it: the
    two closures (here the function and frame count they capture and the
    artists they draw on), the position of the iterator over
    [range(frames)], and the timer [event_source] ([None] once the
    animation is torn down, otherwise whether it is running). *)
Record FuncAnimation := {
  anim_function : pyfun;
  anim_frames : nat;
  anim_interval : Z;
  frame_seq : nat;
  event_source : option bool;
  axes : Artists;
}.

(** [polar_animator(polar_function, frames, interval, ...)] (lines 11-182):
    builds the axes and returns the animation object; its timer has not
    been started yet. *)
Definition polar_animator (polar_function : pyfun) (frames : nat) (interval : Z)
  : result FuncAnimation :=
  a ← create_artists polar_function;
  mret {| anim_function := polar_function;
          anim_frames := frames;
          anim_interval := interval;
          frame_seq := 0;
          event_source := Some false;
          axes := a |}.

(** [event_source.start()] and [event_source.stop()] of a timer. *)
Definition timer_start (running : bool) : result bool := Ok true.
Definition timer_stop (running : bool) : result bool := Ok false.

(** The first draw of the figure ([Animation._start]): [init_func] is
    called and the timer is started. *)
Definition first_draw (ani : FuncAnimation) : result FuncAnimation :=
  a ← init (anim_function ani) (axes ani);
  mret {| anim_function := anim_function ani;
          anim_frames := anim_frames ani;
          anim_interval := anim_interval ani;
          frame_seq := 0;
          event_source := Some true;
          axes := a |}.

(** One timer event ([TimedAnimation._step]), the tick of the animation.
    A stopped or removed timer delivers none.  With [frames] an integer the
    frame sequence is [range(frames)]: a tick takes the next index [i] and
    calls [animate(i)]; when the sequence is exhausted the default
    [repeat=True] makes the tick call [init_func] and restart the
    sequence. *)
Definition tick (ani : FuncAnimation) : result FuncAnimation :=
  match event_source ani with
  | Some true =>
      if decide (frame_seq ani < anim_frames ani)%nat
      then
        a ← animate (anim_function ani) (anim_frames ani) (frame_seq ani) (axes ani);
        mret {| anim_function := anim_function ani;
                anim_frames := anim_frames ani;
                anim_interval := anim_interval ani;
                frame_seq := S (frame_seq ani);
                event_source := event_source ani;
                axes := a |}
      else
        a ← init (anim_function ani) (axes ani);
        mret {| anim_function := anim_function ani;
                anim_frames := anim_frames ani;
                anim_interval := anim_interval ani;
                frame_seq := 0;
                event_source := event_source ani;
                axes := a |}
  | _ => mret ani
  end.

Fixpoint ticks (n : nat) (ani : FuncAnimation) : result FuncAnimation :=
  match n with
  | O => mret ani
  | S n' => ani' ← tick ani; ticks n' ani'
  end.

(** ** PolarEquationApp *)

Record coef_spec := {
  coef_default : R;
  coef_min : R;
  coef_max : R;
  coef_step : option R;
}.

Record equation_data := {
  function : R -> R;
  equation_str : string;
  coefficients : list (string * coef_spec);
}.

(** [self.equations] (lines 218-256), in insertion order; the display
    strings are written in ASCII. *)
Definition equations : list (string * equation_data) :=
  [ ("Circle",
     {| function := circle; equation_str := "r = a";
        coefficients :=
          [("a", {| coef_default := 2; coef_min := 0.1; coef_max := 5; coef_step := None |})] |});
    ("Cardioid",
     {| function := cardioid; equation_str := "r = a*(1 + cos(theta))";
        coefficients :=
          [("a", {| coef_default := 2; coef_min := 0.1; coef_max := 5; coef_step := None |})] |});
    ("Rose",
     {| function := rose; equation_str := "r = a*cos(n*theta)";
        coefficients :=
          [("a", {| coef_default := 3; coef_min := 0.1; coef_max := 5; coef_step := None |});
           ("n", {| coef_default := 3; coef_min := 1; coef_max := 10; coef_step := Some 1 |})] |});
    ("Spiral",
     {| function := spiral; equation_str := "r = a*theta";
        coefficients :=
          [("a", {| coef_default := 0.5; coef_min := 0.1; coef_max := 2; coef_step := None |})] |});
    ("Limacon",
     {| function := limacon; equation_str := "r = a + b*cos(theta)";
        coefficients :=
          [("a", {| coef_default := 2; coef_min := 0.1; coef_max := 5; coef_step := None |});
           ("b", {| coef_default := 1; coef_min := 0.1; coef_max := 5; coef_step := None |})] |}) ].

(** [d[key]] on the registry and on a dictionary of numbers. *)
Fixpoint assoc {A} (d : list (string * A)) (key : string) : result A :=
  match d with
  | [] => Raise (KeyError key)
  | (k, v) :: d' => if decide (k = key) then Ok v else assoc d' key
  end.

Definition getitem (d : gmap string R) (key : string) : result R :=
  match d !! key with
  | Some v => Ok v
  | None => Raise (KeyError key)
  end.

(** The closure [current_function] of [update_static_plot] (lines 410-421)
    and of [start_animation] (lines 497-508); the two are the same text. *)
Definition current_function (equation_name : string) (coef_values : gmap string R) : pyfun :=
  fun theta =>
    if decide (equation_name = "Circle") then
      getitem coef_values "a"
    else if decide (equation_name = "Cardioid") then
      a ← getitem coef_values "a";
      mret (a * (1 + cos theta))
    else if decide (equation_name = "Rose") then
      a ← getitem coef_values "a";
      n ← getitem coef_values "n";
      mret (a * cos (n * theta))
    else if decide (equation_name = "Spiral") then
      a ← getitem coef_values "a";
      mret (a * theta)
    else if decide (equation_name = "Limacon") then
      a ← getitem coef_values "a";
      b ← getitem coef_values "b";
      mret (a + b * cos theta)
    else
      mret 0.

Inductive widget_state := normal | disabled | readonly.

Record Controls := {
  equation_combo : widget_state;
  start_button : widget_state;
  pause_button : widget_state;
  pause_button_text : string;
  stop_button : widget_state;
  scales : widget_state;
}.

(** The figure window of the animation ([plt.gcf()]). *)
Inductive figure_window := WindowOpen | WindowClosed.

(** What [update_static_plot] draws on [self.fig]. *)
Record StaticPlot := {
  static_ylim : R * R;
  static_curve : xydata;
}.

Record App := {
  animation : option FuncAnimation;
  current_frame : option figure_window;
  is_paused : bool;
  equation_var : string;
  sliders : gmap string R;
  speed_var : Z;
  controls : Controls;
  fig : option StaticPlot;
  plot_frame_packed : bool;
  root_geometry : string;
  original_geometry : string;
}.

(** The guard the methods share:
    [self.animation and hasattr(self.animation, 'event_source') and
     self.animation.event_source is not None]. *)
Definition active_animation (self : App) : option (FuncAnimation * bool) :=
  match animation self with
  | Some ani =>
      match event_source ani with
      | Some running => Some (ani, running)
      | None => None
      end
  | None => None
  end.

Definition set_timer (ani : FuncAnimation) (running : bool) : FuncAnimation :=
  {| anim_function := anim_function ani;
     anim_frames := anim_frames ani;
     anim_interval := anim_interval ani;
     frame_seq := frame_seq ani;
     event_source := Some running;
     axes := axes ani |}.

(** [update_static_plot] (lines 396-465). *)
Definition update_static_plot (self : App) : result App :=
  let equation_name := equation_var self in
  equation_data ← assoc equations equation_name;
  let coef_values := sliders self in
  let thetas := linspace 0 (2 * PI) 1000 in
  rs ← mapM (current_function equation_name coef_values) thetas;
  lo ← py_min rs;
  hi ← py_max rs;
  let top := 1.1 * Rmax (if Rlt_dec lo 0 then Rabs lo else 0) hi in
  let curve := normalize_loop (zip thetas rs) [] [] in
  mret {| animation := animation self;
          current_frame := current_frame self;
          is_paused := is_paused self;
          equation_var := equation_var self;
          sliders := sliders self;
          speed_var := speed_var self;
          controls := controls self;
          fig := Some {| static_ylim := (0, top); static_curve := curve |};
          plot_frame_packed := plot_frame_packed self;
          root_geometry := root_geometry self;
          original_geometry := original_geometry self |}.

(** [plt.close(figure)]. *)
Definition plt_close (w : figure_window) : result figure_window := Ok WindowClosed.

(** The controls as [stop_animation] and [handle_animation_close] leave
    them (lines 595-603); the text of the pause button is not touched. *)
Definition enable_controls (c : Controls) : Controls :=
  {| equation_combo := readonly;
     start_button := normal;
     pause_button := disabled;
     pause_button_text := pause_button_text c;
     stop_button := disabled;
     scales := normal |}.

(** [stop_animation] (lines 578-614). *)
Definition stop_animation (self : App) : result App :=
  let '(animation', current_frame') :=
    match active_animation self with
    | Some (ani, running) =>
        let _ := try_except (timer_stop running) running in
        let current_frame' :=
          match current_frame self with
          | Some w => Some (try_except (plt_close w) w)
          | None => None
          end in
        (None, current_frame')
    | None => (animation self, current_frame self)
    end in
  self' ← update_static_plot
    {| animation := animation';
       current_frame := current_frame';
       is_paused := false;
       equation_var := equation_var self;
       sliders := sliders self;
       speed_var := speed_var self;
       controls := enable_controls (controls self);
       fig := fig self;
       plot_frame_packed := plot_frame_packed self;
       root_geometry := root_geometry self;
       original_geometry := original_geometry self |};
  mret {| animation := animation self';
          current_frame := current_frame self';
          is_paused := is_paused self';
          equation_var := equation_var self';
          sliders := sliders self';
          speed_var := speed_var self';
          controls := controls self';
          fig := fig self';
          plot_frame_packed := true;
          root_geometry :=
            if decide (original_geometry self' = "")
            then root_geometry self'
            else original_geometry self';
          original_geometry := original_geometry self' |}.

(** [handle_animation_close] (lines 544-576). *)
Definition handle_animation_close (self : App) : result App :=
  match active_animation self with
  | Some (ani, running) =>
      let _ := try_except (timer_stop running) running in
      self' ← update_static_plot
        {| animation := None;
           current_frame := current_frame self;
           is_paused := false;
           equation_var := equation_var self;
           sliders := sliders self;
           speed_var := speed_var self;
           controls := enable_controls (controls self);
           fig := fig self;
           plot_frame_packed := plot_frame_packed self;
           root_geometry := root_geometry self;
           original_geometry := original_geometry self |};
      mret {| animation := animation self';
              current_frame := current_frame self';
              is_paused := is_paused self';
              equation_var := equation_var self';
              sliders := sliders self';
              speed_var := speed_var self';
              controls := controls self';
              fig := fig self';
              plot_frame_packed := true;
              root_geometry :=
                if decide (original_geometry self' = "")
                then root_geometry self'
                else original_geometry self';
              original_geometry := original_geometry self' |}
  | None => mret self
  end.

(** The state after one successful branch of [toggle_pause]: the timer
    switched, the button relabelled, the flag set. *)
Definition toggled (self : App) (ani : FuncAnimation) (running : bool)
    (text : string) (paused : bool) : App :=
  {| animation := Some (set_timer ani running);
     current_frame := current_frame self;
     is_paused := paused;
     equation_var := equation_var self;
     sliders := sliders self;
     speed_var := speed_var self;
     controls :=
       {| equation_combo := equation_combo (controls self);
          start_button := start_button (controls self);
          pause_button := pause_button (controls self);
          pause_button_text := text;
          stop_button := stop_button (controls self);
          scales := scales (controls self) |};
     fig := fig self;
     plot_frame_packed := plot_frame_packed self;
     root_geometry := root_geometry self;
     original_geometry := original_geometry self |}.

(** [toggle_pause] (lines 375-394). *)
Definition toggle_pause (self : App) : result App :=
  match active_animation self with
  | Some (ani, running) =>
      if is_paused self then
        match timer_start running with
        | Ok running' => mret (toggled self ani running' "Pause" false)
        | Raise _ => stop_animation self
        end
      else
        match timer_stop running with
        | Ok running' => mret (toggled self ani running' "Resume" true)
        | Raise _ => stop_animation self
        end
  | None => mret self
  end.

(** [start_animation] (lines 467-542).  [plt.show(block=False)] draws the
    new figure, which is the first draw of the animation. *)
Definition start_animation (self : App) : result App :=
  let equation_name := equation_var self in
  equation_data ← assoc equations equation_name;
  let coef_values := sliders self in
  let _ :=
    match active_animation self with
    | Some (ani, running) => try_except (timer_stop running) running
    | None => false
    end in
  ani ← polar_animator (current_function equation_name coef_values)
          200 (100 - speed_var self);
  ani' ← first_draw ani;
  mret {| animation := Some ani';
          current_frame := Some WindowOpen;
          is_paused := false;
          equation_var := equation_var self;
          sliders := sliders self;
          speed_var := speed_var self;
          controls :=
            {| equation_combo := disabled;
               start_button := disabled;
               pause_button := normal;
               pause_button_text := pause_button_text (controls self);
               stop_button := normal;
               scales := disabled |};
          fig := fig self;
          plot_frame_packed := false;
          root_geometry := "400x500";
          original_geometry := root_geometry self |}.

(** [on_equation_selected] (lines 321-359): one slider per coefficient of
    the selected equation, at its default, then the static plot. *)
Definition on_equation_selected (self : App) : result App :=
  let equation_name := equation_var self in
  equation_data ← assoc equations equation_name;
  let sliders' :=
    foldl (fun d '(coef_name, coef_data) => <[coef_name := coef_default coef_data]> d)
          (∅ : gmap string R) (coefficients equation_data) in
  update_static_plot
    {| animation := animation self;
       current_frame := current_frame self;
       is_paused := is_paused self;
       equation_var := equation_var self;
       sliders := sliders';
       speed_var := speed_var self;
       controls := controls self;
       fig := fig self;
       plot_frame_packed := plot_frame_packed self;
       root_geometry := root_geometry self;
       original_geometry := original_geometry self |}.

(** The object [__init__] and [setup_ui] build before
    [on_equation_selected(None)] fills in the sliders and the plot
    (lines 208-316). *)
Definition new_app : App :=
  {| animation := None;
     current_frame := None;
     is_paused := false;
     equation_var := default "" (head (fst <$> equations));
     sliders := ∅;
     speed_var := 50;
     controls :=
       {| equation_combo := readonly;
          start_button := normal;
          pause_button := disabled;
          pause_button_text := "Pause";
          stop_button := disabled;
          scales := normal |};
     fig := None;
     plot_frame_packed := true;
     root_geometry := "1400x800";
     original_geometry := "1400x800" |}.

(** [PolarEquationApp(root)]. *)
Definition app_init : result App := on_equation_selected new_app.

(** A timer event of the animation the application holds. *)
Definition app_tick (self : App) : result App :=
  match animation self with
  | Some ani =>
      ani' ← tick ani;
      mret {| animation := Some ani';
              current_frame := current_frame self;
              is_paused := is_paused self;
              equation_var := equation_var self;
              sliders := sliders self;
              speed_var := speed_var self;
              controls := controls self;
              fig := fig self;
              plot_frame_packed := plot_frame_packed self;
              root_geometry := root_geometry self;
              original_geometry := original_geometry self |}
  | None => mret self
  end.

Fixpoint app_ticks (n : nat) (self : App) : result App :=
  match n with
  | O => mret self
  | S n' => self' ← app_tick self; app_ticks n' self'
  end.

(** The state of the animation state machine an application is in. *)
Inductive machine_state := Stopped | Running | Paused.

Definition state_of (self : App) : machine_state :=
  match active_animation self with
  | None => Stopped
  | Some _ => if is_paused self then Paused else Running
  end.

(** ** Vocabulary of the statements *)

(** Point [k] of a plotted curve. *)
Definition curve_point (curve : xydata) (k : nat) : option (R * R) :=
  zip curve.1 curve.2 !! k.

(** The selected equation is registered and every coefficient it declares
    has a slider: what [on_equation_selected] establishes and no method
    breaks. *)
Definition well_formed (self : App) : Prop :=
  match assoc equations (equation_var self) with
  | Ok equation_data =>
      Forall (fun c => is_Some (sliders self !! c.1)) (coefficients equation_data)
  | Raise _ => False
  end.

(** An animation of the total function [f] whose timer is running and
    whose frame sequence stands at [position]. *)
Definition running_animation (f : R -> R) (frames : nat) (interval : Z)
    (position : nat) (a : Artists) : FuncAnimation :=
  {| anim_function := pure_fn f;
     anim_frames := frames;
     anim_interval := interval;
     frame_seq := position;
     event_source := Some true;
     axes := a |}.

(** The faint ray [animate] keeps for frame [i]. *)
Definition trail_ray (frames : nat) (max_r : R) (i : nat) : xydata :=
  ([0; frame_theta frames i], [0; max_r]).

#[global] Instance result_fmap : FMap result := fun _ _ f m =>
  match m with
  | Ok a => Ok (f a)
  | Raise e => Raise e
  end.

(** ** Example states *)

(** An application showing equation [name] with the slider values
    [coefs], no animation started. *)
Definition example_app (name : string) (coefs : gmap string R) : App :=
  {| animation := None;
     current_frame := None;
     is_paused := false;
     equation_var := name;
     sliders := coefs;
     speed_var := 50;
     controls := controls new_app;
     fig := None;
     plot_frame_packed := true;
     root_geometry := "1400x800";
     original_geometry := "1400x800" |}.

Definition circle_app : App := example_app "Circle" {[ "a" := 2 ]}.
Definition rose_app : App := example_app "Rose" (<[ "a" := 3 ]> {[ "n" := 3 ]}).

(** Axes on which nothing has been drawn yet. *)
Definition blank_artists : Artists :=
  {| ylim := (0, 1);
     full_curve := ([], []);
     line_trace := ([], []);
     point := ([], []);
     opposite_point := ([], []);
     ray := ([], []);
     opposite_ray := ([], []);
     rays_collection := [];
     drawn_curve := ([], []) |}.

(** ** The remaining widgets of the application *)

(** The builtin [round] on a float, which [int(round(value))] then leaves
    as it is: the nearest integer, a tie going to the even one. *)
Definition py_round (x : R) : Z :=
  if Rlt_dec (frac_part x) (1 / 2) then Int_part x
  else if Rlt_dec (1 / 2) (frac_part x) then (Int_part x + 1)%Z
  else if Z.even (Int_part x) then Int_part x
  else (Int_part x + 1)%Z.

Definition with_sliders (self : App) (sliders' : gmap string R) : App :=
  {| animation := animation self;
     current_frame := current_frame self;
     is_paused := is_paused self;
     equation_var := equation_var self;
     sliders := sliders';
     speed_var := speed_var self;
     controls := controls self;
     fig := fig self;
     plot_frame_packed := plot_frame_packed self;
     root_geometry := root_geometry self;
     original_geometry := original_geometry self |}.

(** [update_coef_value] (lines 361-373).  [.get("step", 0.1)] is the step
    of the coefficient or 0.1; the label of the slider is looked up in
    [self.sliders] on either branch (line 370). *)
Definition update_coef_value (self : App) (name : string) (value : R) : result App :=
  let equation_name := equation_var self in
  equation_data ← assoc equations equation_name;
  coef_data ← assoc (coefficients equation_data) name;
  let step := default 0.1 (coef_step coef_data) in
  if Req_dec_T step 1 then
    let value' := IZR (py_round value) in
    _ ← getitem (sliders self) name;
    update_static_plot (with_sliders self (<[name := value']> (sliders self)))
  else
    _ ← getitem (sliders self) name;
    update_static_plot self.

(** Moving the scale of coefficient [name] to [value]: the widget writes
    its variable ([variable=var], line 343) and runs its command, which is
    [update_coef_value(name, float(v))]. *)
Definition scale_moved (self : App) (name : string) (value : R) : result App :=
  update_coef_value (with_sliders self (<[name := value]> (sliders self))) name value.

(** Choosing [name] in the combobox: the widget writes [equation_var]
    and the binding of line 276 runs [on_equation_selected]. *)
Definition combobox_selected (self : App) (name : string) : result App :=
  on_equation_selected
    {| animation := animation self;
       current_frame := current_frame self;
       is_paused := is_paused self;
       equation_var := name;
       sliders := sliders self;
       speed_var := speed_var self;
       controls := controls self;
       fig := fig self;
       plot_frame_packed := plot_frame_packed self;
       root_geometry := root_geometry self;
       original_geometry := original_geometry self |}.








(** The controls while no animation is active and while one is. *)
Definition controls_stopped (c : Controls) : Prop :=
  equation_combo c = readonly /\ start_button c = normal /\
  pause_button c = disabled /\ stop_button c = disabled /\ scales c = normal.

Definition controls_running (c : Controls) : Prop :=
  equation_combo c = disabled /\ start_button c = disabled /\
  pause_button c = normal /\ stop_button c = normal /\ scales c = disabled.

(** The sliders are those of the selected equation, no more and no fewer. *)
Definition sliders_match (self : App) : Prop :=
  exists equation_data,
    assoc equations (equation_var self) = Ok equation_data /\
    forall name, is_Some (sliders self !! name) <->
                 name ∈ (coefficients equation_data).*1.


(** The application [stop_animation] leaves behind when the static plot it
    redraws is [plot]. *)
Definition after_stop (self : App) (plot : StaticPlot) : App :=
  {| animation :=
       match active_animation self with
       | Some _ => None
       | None => animation self
       end;
     current_frame :=
       match active_animation self, current_frame self with
       | Some _, Some _ => Some WindowClosed
       | _, _ => current_frame self
       end;
     is_paused := false;
     equation_var := equation_var self;
     sliders := sliders self;
     speed_var := speed_var self;
     controls := enable_controls (controls self);
     fig := Some plot;
     plot_frame_packed := true;
     root_geometry :=
       if decide (original_geometry self = "")
       then root_geometry self
       else original_geometry self;
     original_geometry := original_geometry self |}.

(** The application [start_animation] leaves behind when the animation it
    creates is [ani]. *)
Definition after_start (self : App) (ani : FuncAnimation) : App :=
  {| animation := Some ani;
     current_frame := Some WindowOpen;
     is_paused := false;
     equation_var := equation_var self;
     sliders := sliders self;
     speed_var := speed_var self;
     controls :=
       {| equation_combo := disabled;
          start_button := disabled;
          pause_button := normal;
          pause_button_text := pause_button_text (controls self);
          stop_button := normal;
          scales := disabled |};
     fig := fig self;
     plot_frame_packed := false;
     root_geometry := "400x500";
     original_geometry := root_geometry self |}.

(** * Properties *)

(** ** The result monad *)

Lemma mapM_pure_fn (f : R -> R) (l : list R) :
  mapM (pure_fn f) l = Ok (f <$> l).
Proof.
  induction l as [|x l IH]; [reflexivity|].
  cbn [mapM]. rewrite IH. reflexivity.
Qed.

Lemma mapM_result_lookup (f : pyfun) (l : list R) (rs : list R) :
  mapM f l = Ok rs ->
  length rs = length l /\
  forall k x, l !! k = Some x -> exists r, f x = Ok r /\ rs !! k = Some r.
Proof.
  revert rs. induction l as [|x l IH]; intros rs H.
  - cbn in H. injection H as <-. split; [reflexivity|]. intros k y Hk. discriminate.
  - cbn [mapM] in H. unfold mbind, result_bind in H.
    destruct (f x) as [r|e] eqn:Hx; [|discriminate].
    destruct (mapM f l) as [rs'|e] eqn:Hl; [|discriminate].
    cbn in H. injection H as <-.
    destruct (IH rs' eq_refl) as [Hlen Hlk].
    split; [cbn; congruence|].
    intros [|k] y Hk; cbn in Hk.
    + injection Hk as <-. exists r. split; [assumption|reflexivity].
    + apply Hlk. assumption.
Qed.

Lemma mapM_result_total (f : pyfun) (l : list R) :
  (forall x, exists r, f x = Ok r) -> exists rs, mapM f l = Ok rs.
Proof.
  intros Hf. induction l as [|x l [rs IH]].
  - exists []. reflexivity.
  - destruct (Hf x) as [r Hr]. exists (r :: rs).
    cbn [mapM]. rewrite Hr, IH. reflexivity.
Qed.

(** ** linspace *)

Lemma linspace_length start stop num : length (linspace start stop num) = num.
Proof. unfold linspace. rewrite length_fmap. apply length_seq. Qed.

Lemma linspace_lookup start stop num k :
  (k < num)%nat ->
  linspace start stop num !! k = Some (INR k * ((stop - start) / INR (num - 1)) + start).
Proof.
  intros Hk. unfold linspace. rewrite list_lookup_fmap.
  rewrite lookup_seq_lt by assumption. reflexivity.
Qed.

(** The first sample is [start] and, from two samples on, the last is
    [stop]: the partition is closed at both ends. *)
Lemma linspace_first start stop num :
  (0 < num)%nat -> linspace start stop num !! 0%nat = Some start.
Proof.
  intros H. rewrite linspace_lookup by assumption. f_equal. cbn [INR]. ring.
Qed.

Lemma linspace_last start stop num :
  (2 <= num)%nat -> linspace start stop num !! (num - 1)%nat = Some stop.
Proof.
  intros H. rewrite linspace_lookup by lia. f_equal.
  assert (0 < INR (num - 1)) by (apply lt_0_INR; lia).
  field. lra.
Qed.

(** ** The normalisation loop *)

Lemma normalize_loop_length pts ts rs :
  length (normalize_loop pts ts rs).1 = (length ts + length pts)%nat /\
  length (normalize_loop pts ts rs).2 = (length rs + length pts)%nat.
Proof.
  revert ts rs. induction pts as [|[t r] pts IH]; intros ts rs; cbn [normalize_loop].
  - cbn. lia.
  - destruct (Rge_dec r 0);
      match goal with |- context [normalize_loop pts ?a ?b] =>
        destruct (IH a b) as [-> ->] end;
      rewrite !length_app; cbn; lia.
Qed.

(** The loop only appends: what the accumulators held stays in place. *)
Lemma normalize_loop_prefix pts ts rs :
  exists ts' rs',
    normalize_loop pts ts rs = (ts ++ ts', rs ++ rs') /\
    length ts' = length pts /\ length rs' = length pts.
Proof.
  revert ts rs. induction pts as [|[t r] pts IH]; intros ts rs; cbn [normalize_loop].
  - exists [], []. rewrite !app_nil_r. auto.
  - destruct (Rge_dec r 0);
      match goal with |- context [normalize_loop pts (_ ++ [?a]) (_ ++ [?b])] =>
        destruct (IH (ts ++ [a]) (rs ++ [b])) as (ts' & rs' & -> & Ht & Hr);
        exists (a :: ts'), (b :: rs') end;
      rewrite <- !app_assoc; cbn; auto.
Qed.

(** Entry [k] of the loop's output, for an input pair [(t, r)] at
    position [k]. *)
Lemma normalize_loop_lookup pts ts rs k t r :
  length ts = length rs ->
  pts !! k = Some (t, r) ->
  curve_point (normalize_loop pts ts rs) (length ts + k) =
    Some (if Rge_dec r 0 then (t, r) else (t + PI, Rabs r)).
Proof.
  revert ts rs k. induction pts as [|[t' r'] pts IH]; intros ts rs k Hlen Hk.
  - discriminate.
  - destruct k as [|k]; cbn in Hk.
    + injection Hk as -> ->. cbn [normalize_loop].
      destruct (Rge_dec r 0);
        match goal with |- context [normalize_loop pts (_ ++ [?a]) (_ ++ [?b])] =>
          destruct (normalize_loop_prefix pts (ts ++ [a]) (rs ++ [b]))
            as (ts' & rs' & -> & _ & _) end;
        unfold curve_point; cbn [fst snd];
        rewrite <- !app_assoc, Nat.add_0_r;
        (rewrite zip_with_app by assumption);
        (rewrite lookup_app_r by (rewrite length_zip_with; lia));
        rewrite length_zip_with, <- Hlen, Nat.min_id, Nat.sub_diag; reflexivity.
    + cbn [normalize_loop].
      destruct (Rge_dec r' 0);
        match goal with |- context [normalize_loop pts (_ ++ [?a]) (_ ++ [?b])] =>
          specialize (IH (ts ++ [a]) (rs ++ [b]) k) end;
        rewrite !length_app in IH; cbn [length] in IH;
        replace (length ts + S k)%nat with (length ts + 1 + k)%nat by lia;
        apply IH; [lia | assumption | lia | assumption].
Qed.

(** ** The sampler on a total function *)

Lemma sample_pure_fn f theta_start theta_end resolution :
  sample (pure_fn f) theta_start theta_end resolution =
    Ok (normalize_loop
          (zip (linspace theta_start theta_end resolution)
               (f <$> linspace theta_start theta_end resolution)) [] []).
Proof. unfold sample. rewrite mapM_pure_fn. reflexivity. Qed.

Lemma zip_fmap_lookup (f : R -> R) (l : list R) k x :
  l !! k = Some x -> zip l (f <$> l) !! k = Some (x, f x).
Proof.
  intros H. rewrite lookup_zip_with, H. cbn.
  rewrite list_lookup_fmap, H. reflexivity.
Qed.

Lemma zip_result_lookup (l rs : list R) k x r :
  l !! k = Some x -> rs !! k = Some r -> zip l rs !! k = Some (x, r).
Proof. intros H1 H2. rewrite lookup_zip_with, H1. cbn. rewrite H2. reflexivity. Qed.

(** ** animate on a total function *)

Lemma animate_pure_fn f frames i a :
  exists a',
    animate (pure_fn f) frames i a = Ok a' /\
    ylim a' = ylim a /\
    full_curve a' = full_curve a /\
    line_trace a' = line_trace a /\
    ray a' = ([0; frame_theta frames i], [0; (ylim a).2]) /\
    opposite_ray a' = ([0; frame_theta frames i + PI], [0; (ylim a).2]) /\
    rays_collection a' =
      (if decide (i `mod` 10 = 0)%nat
       then rays_collection a ++ [trail_ray frames (ylim a).2 i]
       else rays_collection a) /\
    (point a', opposite_point a') =
      (if Rge_dec (f (frame_theta frames i)) 0
       then (([frame_theta frames i], [f (frame_theta frames i)]), ([], []))
       else (([frame_theta frames i + PI], [Rabs (f (frame_theta frames i))]),
             ([frame_theta frames i], [0]))) /\
    drawn_curve a' =
      normalize_loop
        (zip (linspace 0 (frame_theta frames i) 100)
             (f <$> linspace 0 (frame_theta frames i) 100)) [] [].
Proof.
  unfold animate. rewrite sample_pure_fn. unfold pure_fn.
  cbn [mbind result_bind mret result_ret].
  destruct (Rge_dec (f (frame_theta frames i)) 0);
    (eexists; split; [reflexivity|]);
    cbn [ylim full_curve line_trace ray opposite_ray rays_collection point
         opposite_point drawn_curve];
    repeat split; reflexivity.
Qed.

(** ** The application's evaluation function and static plot *)

Lemma assoc_equations_inv name data :
  assoc equations name = Ok data ->
  (name = "Circle" /\ (coefficients data).*1 = ["a"]) \/
  (name = "Cardioid" /\ (coefficients data).*1 = ["a"]) \/
  (name = "Rose" /\ (coefficients data).*1 = ["a"; "n"]) \/
  (name = "Spiral" /\ (coefficients data).*1 = ["a"]) \/
  (name = "Limacon" /\ (coefficients data).*1 = ["a"; "b"]).
Proof.
  unfold equations. cbn [assoc]. intros H.
  repeat case_decide; try discriminate; injection H as <-; subst name; cbn; tauto.
Qed.

Lemma well_formed_lookup self data c :
  assoc equations (equation_var self) = Ok data ->
  well_formed self ->
  c ∈ (coefficients data).*1 ->
  exists v, sliders self !! c = Some v.
Proof.
  unfold well_formed. intros -> Hall Hc.
  apply list_elem_of_fmap in Hc as (p & -> & Hp).
  rewrite Forall_forall in Hall. destruct (Hall p Hp) as [v Hv]. eauto.
Qed.

(** On a well-formed application the evaluation function never raises. *)
Lemma current_function_total self :
  well_formed self ->
  forall theta, exists r,
    current_function (equation_var self) (sliders self) theta = Ok r.
Proof.
  intros Hwf theta. pose proof Hwf as Hwf'. unfold well_formed in Hwf'.
  destruct (assoc equations (equation_var self)) as [data|] eqn:Hdata; [|contradiction].
  clear Hwf'.
  assert (Hget : forall c, c ∈ (coefficients data).*1 ->
            exists v, getitem (sliders self) c = Ok v).
  { intros c Hc. destruct (well_formed_lookup self data c Hdata Hwf Hc) as [v Hv].
    exists v. unfold getitem. rewrite Hv. reflexivity. }
  unfold current_function.
  destruct (assoc_equations_inv _ _ Hdata)
    as [[-> Hc]|[[-> Hc]|[[-> Hc]|[[-> Hc]|[-> Hc]]]]];
    rewrite Hc in Hget; repeat case_decide; try discriminate; try congruence.
  - destruct (Hget "a") as [a Ha]; [set_solver|]. eauto.
  - destruct (Hget "a") as [a ->]; [set_solver|]. cbn. eauto.
  - destruct (Hget "a") as [a ->]; [set_solver|].
    destruct (Hget "n") as [n ->]; [set_solver|]. cbn. eauto.
  - destruct (Hget "a") as [a ->]; [set_solver|]. cbn. eauto.
  - destruct (Hget "a") as [a ->]; [set_solver|].
    destruct (Hget "b") as [b ->]; [set_solver|]. cbn. eauto.
Qed.

(** On a well-formed application the evaluation function is a total
    function of the angle. *)
Lemma current_function_pure self :
  well_formed self ->
  exists f : R -> R,
    current_function (equation_var self) (sliders self) = pure_fn f.
Proof.
  intros Hwf. pose proof Hwf as Hwf'. unfold well_formed in Hwf'.
  destruct (assoc equations (equation_var self)) as [data|] eqn:Hdata; [|contradiction].
  clear Hwf'.
  assert (Hget : forall c, c ∈ (coefficients data).*1 ->
            exists v, getitem (sliders self) c = Ok v).
  { intros c Hc. destruct (well_formed_lookup self data c Hdata Hwf Hc) as [v Hv].
    exists v. unfold getitem. rewrite Hv. reflexivity. }
  unfold current_function.
  destruct (assoc_equations_inv _ _ Hdata)
    as [[-> Hc]|[[-> Hc]|[[-> Hc]|[[-> Hc]|[-> Hc]]]]];
    rewrite Hc in Hget; repeat case_decide; try discriminate; try congruence.
  - destruct (Hget "a") as [a ->]; [set_solver|].
    exists (fun _ => a). reflexivity.
  - destruct (Hget "a") as [a ->]; [set_solver|].
    exists (fun theta => a * (1 + cos theta)). reflexivity.
  - destruct (Hget "a") as [a ->]; [set_solver|].
    destruct (Hget "n") as [n ->]; [set_solver|].
    exists (fun theta => a * cos (n * theta)). reflexivity.
  - destruct (Hget "a") as [a ->]; [set_solver|].
    exists (fun theta => a * theta). reflexivity.
  - destruct (Hget "a") as [a ->]; [set_solver|].
    destruct (Hget "b") as [b ->]; [set_solver|].
    exists (fun theta => a + b * cos theta). reflexivity.
Qed.

Lemma py_min_ok (l : list R) : (0 < length l)%nat -> exists x, py_min l = Ok x.
Proof. destruct l; cbn; [lia|eauto]. Qed.

Lemma py_max_ok (l : list R) : (0 < length l)%nat -> exists x, py_max l = Ok x.
Proof. destruct l; cbn; [lia|eauto]. Qed.

(** [update_static_plot] returns on a well-formed application, and what it
    draws is the normalisation loop run over the 1000 samples. *)
Lemma update_static_plot_ok self :
  well_formed self ->
  exists rs lo hi,
    mapM (current_function (equation_var self) (sliders self))
         (linspace 0 (2 * PI) 1000) = Ok rs /\
    py_min rs = Ok lo /\
    py_max rs = Ok hi /\
    update_static_plot self =
      Ok {| animation := animation self;
            current_frame := current_frame self;
            is_paused := is_paused self;
            equation_var := equation_var self;
            sliders := sliders self;
            speed_var := speed_var self;
            controls := controls self;
            fig := Some {| static_ylim :=
                             (0, 1.1 * Rmax (if Rlt_dec lo 0 then Rabs lo else 0) hi);
                           static_curve :=
                             normalize_loop (zip (linspace 0 (2 * PI) 1000) rs) [] [] |};
            plot_frame_packed := plot_frame_packed self;
            root_geometry := root_geometry self;
            original_geometry := original_geometry self |}.
Proof.
  intros Hwf. pose proof Hwf as Hwf'. unfold well_formed in Hwf'.
  destruct (assoc equations (equation_var self)) as [data|] eqn:Hdata; [|contradiction].
  destruct (mapM_result_total _ (linspace 0 (2 * PI) 1000) (current_function_total self Hwf))
    as [rs Hrs].
  destruct (mapM_result_lookup _ _ _ Hrs) as [Hlen _].
  rewrite linspace_length in Hlen.
  destruct (py_min_ok rs) as [lo Hlo]; [lia|].
  destruct (py_max_ok rs) as [hi Hhi]; [lia|].
  exists rs, lo, hi. split; [assumption|]. split; [assumption|]. split; [assumption|].
  unfold update_static_plot. rewrite Hdata. cbn [mbind result_bind].
  rewrite Hrs. cbn [mbind result_bind]. rewrite Hlo, Hhi. reflexivity.
Qed.

(** Whenever [update_static_plot] returns, the curve on the figure is an
    output of the normalisation loop. *)
Lemma update_static_plot_inv self self' :
  update_static_plot self = Ok self' ->
  exists thetas rs top,
    fig self' = Some {| static_ylim := (0, top);
                        static_curve := normalize_loop (zip thetas rs) [] [] |}.
Proof.
  unfold update_static_plot. generalize (linspace 0 (2 * PI) 1000). intros thetas.
  destruct (assoc equations (equation_var self)); [|discriminate].
  cbn [mbind result_bind].
  destruct (mapM _ thetas) as [rs|]; [|discriminate]. cbn [mbind result_bind].
  destruct (py_min rs); [|discriminate]. cbn [mbind result_bind].
  destruct (py_max rs); [|discriminate]. cbn [mbind result_bind mret result_ret].
  intros [= <-]. cbn [fig]. eauto.
Qed.

(** ** The selection invariant *)

Lemma well_formed_ext (s s' : App) :
  equation_var s' = equation_var s -> sliders s' = sliders s ->
  well_formed s -> well_formed s'.
Proof. unfold well_formed. intros -> ->. auto. Qed.

Lemma update_static_plot_selection self self' :
  update_static_plot self = Ok self' ->
  equation_var self' = equation_var self /\ sliders self' = sliders self /\
  animation self' = animation self /\ is_paused self' = is_paused self.
Proof.
  unfold update_static_plot. generalize (linspace 0 (2 * PI) 1000). intros thetas.
  destruct (assoc equations (equation_var self)); [|discriminate].
  cbn [mbind result_bind].
  destruct (mapM _ thetas) as [rs|]; [|discriminate]. cbn [mbind result_bind].
  destruct (py_min rs); [|discriminate]. cbn [mbind result_bind].
  destruct (py_max rs); [|discriminate]. cbn [mbind result_bind mret result_ret].
  intros [= <-]. cbn. auto.
Qed.

Lemma stop_animation_selection self self' :
  stop_animation self = Ok self' ->
  equation_var self' = equation_var self /\ sliders self' = sliders self /\
  is_paused self' = false /\ state_of self' = Stopped.
Proof.
  unfold stop_animation, state_of.
  destruct (active_animation self) as [[ani running]|] eqn:Hact;
    cbn [try_except timer_stop];
    match goal with |- context [update_static_plot ?s] =>
      destruct (update_static_plot s) as [s1|] eqn:Hs1; [|discriminate];
      apply update_static_plot_selection in Hs1 as (He & Hs & Ha & Hp)
    end;
    cbn [mbind result_bind mret result_ret]; intros [= <-];
    cbn [equation_var sliders is_paused animation] in *;
    unfold active_animation; cbn [animation]; rewrite Ha;
    repeat split; try assumption;
    first [reflexivity | unfold active_animation in Hact; rewrite Hact; reflexivity].
Qed.

(** Every method keeps the selected equation and the slider values, hence
    well-formedness. *)
Lemma methods_preserve_well_formed self self' :
  update_static_plot self = Ok self' \/ stop_animation self = Ok self' \/
  handle_animation_close self = Ok self' \/ toggle_pause self = Ok self' \/
  start_animation self = Ok self' \/ app_tick self = Ok self' ->
  well_formed self -> well_formed self'.
Proof.
  intros H. apply well_formed_ext; revert H.
  all: intros [H|[H|[H|[H|[H|H]]]]].
  all: try (apply update_static_plot_selection in H; tauto).
  all: try (apply stop_animation_selection in H; tauto).
  all: try (unfold handle_animation_close in H;
            destruct (active_animation self) as [[ani running]|];
            [|injection H as <-; reflexivity];
            match type of H with context [update_static_plot ?s] =>
              destruct (update_static_plot s) as [s1|] eqn:Hs1; [|discriminate];
              apply update_static_plot_selection in Hs1 as (He & Hs & _)
            end;
            cbn [mbind result_bind mret result_ret] in H; injection H as <-;
            cbn [equation_var sliders] in *; assumption).
  all: try (unfold toggle_pause in H;
            destruct (active_animation self) as [[ani running]|];
            [|injection H as <-; reflexivity];
            destruct (is_paused self); cbn in H; injection H as <-; reflexivity).
  all: try (unfold start_animation in H;
            destruct (assoc equations (equation_var self)); [|discriminate];
            cbn [mbind result_bind] in H;
            destruct (polar_animator _ _ _) as [ani|]; [|discriminate];
            cbn [mbind result_bind] in H;
            destruct (first_draw ani); [|discriminate];
            cbn [mbind result_bind mret result_ret] in H;
            injection H as <-; reflexivity).
  all: unfold app_tick in H; destruct (animation self) as [ani|];
    [|injection H as <-; reflexivity];
    destruct (tick ani); [|discriminate];
    cbn [mbind result_bind mret result_ret] in H; injection H as <-; reflexivity.
Qed.

(** The application as constructed: Circle selected, its slider at the
    default, nothing animated. *)
Lemma app_init_ok :
  exists self,
    app_init = Ok self /\
    well_formed self /\
    state_of self = Stopped /\
    animation self = None /\
    equation_var self = "Circle" /\
    sliders self = {[ "a" := 2 ]}.
Proof.
  unfold app_init, on_equation_selected.
  change (equation_var new_app) with "Circle".
  change (assoc equations "Circle") with (Ok
    {| function := circle; equation_str := "r = a";
       coefficients :=
         [("a", {| coef_default := 2; coef_min := 0.1; coef_max := 5;
                   coef_step := None |})] |}).
  cbn [mbind result_bind coefficients foldl coef_default].
  match goal with |- context [update_static_plot ?s] => set (s0 := s) end.
  assert (Hwf : well_formed s0).
  { unfold well_formed, s0, equations. cbn.
    repeat constructor. cbn. rewrite lookup_insert_eq. eauto. }
  destruct (update_static_plot_ok s0 Hwf) as (rs & lo & hi & _ & _ & _ & Hplot).
  eexists. split; [exact Hplot|].
  split; [exact Hwf|]. split; [reflexivity|]. split; [reflexivity|].
  split; [reflexivity|]. cbn [sliders s0]. reflexivity.
Qed.

(** ** C1 *)

(** C1.  Every sampled angle of the uniform partition behind a traced curve
    (the 100 samples of [animate] over [0, theta_i]) or a static curve (the
    1000 samples of [update_static_plot] over [0, 2*pi]) is emitted as
    [(theta, f theta)] when [f theta >= 0] and as [(theta + pi, |f theta|)]
    when [f theta < 0]; both computations return. *)
Theorem sampled_points_are_normalized
    (f : R -> R) (frames i : nat) (a : Artists) (self : App) :
  well_formed self ->
  (exists a',
     animate (pure_fn f) frames i a = Ok a' /\
     forall k theta,
       linspace 0 (frame_theta frames i) 100 !! k = Some theta ->
       (f theta >= 0 -> curve_point (drawn_curve a') k = Some (theta, f theta)) /\
       (f theta < 0 ->
        curve_point (drawn_curve a') k = Some (theta + PI, Rabs (f theta)))) /\
  (exists self' plot,
     update_static_plot self = Ok self' /\
     fig self' = Some plot /\
     forall k theta,
       linspace 0 (2 * PI) 1000 !! k = Some theta ->
       exists r,
         current_function (equation_var self) (sliders self) theta = Ok r /\
         (r >= 0 -> curve_point (static_curve plot) k = Some (theta, r)) /\
         (r < 0 -> curve_point (static_curve plot) k = Some (theta + PI, Rabs r))).
Proof.
  intros Hwf. split.
  - destruct (animate_pure_fn f frames i a)
      as (a' & Ha & _ & _ & _ & _ & _ & _ & _ & Hcurve).
    exists a'. split; [assumption|]. intros k theta Hk.
    rewrite Hcurve.
    pose proof (normalize_loop_lookup _ [] [] k theta (f theta) eq_refl
                  (zip_fmap_lookup f _ k theta Hk)) as Hpt.
    cbn [length Nat.add] in Hpt. rewrite Hpt.
    destruct (Rge_dec (f theta) 0); split; intros; try reflexivity; lra.
  - destruct (update_static_plot_ok self Hwf) as (rs & lo & hi & Hrs & _ & _ & Hplot).
    eexists. eexists. split; [exact Hplot|]. split; [reflexivity|].
    intros k theta Hk. cbn [static_curve].
    destruct (mapM_result_lookup _ _ _ Hrs) as [_ Hlk].
    destruct (Hlk k theta Hk) as (r & Hr & Hrk).
    exists r. split; [assumption|].
    pose proof (normalize_loop_lookup _ [] [] k theta r eq_refl
                  (zip_result_lookup _ _ k theta r Hk Hrk)) as Hpt.
    cbn [length Nat.add] in Hpt. rewrite Hpt.
    destruct (Rge_dec r 0); split; intros; try reflexivity; lra.
Qed.

Lemma circle_app_well_formed : well_formed circle_app.
Proof.
  unfold well_formed, circle_app, example_app, equations. cbn.
  repeat constructor. cbn. rewrite lookup_singleton_eq. eauto.
Qed.

Lemma rose_app_well_formed : well_formed rose_app.
Proof.
  unfold well_formed, rose_app, example_app, equations. cbn.
  repeat constructor; cbn.
  - rewrite lookup_insert_eq. eauto.
  - rewrite lookup_insert_ne by discriminate. rewrite lookup_singleton_eq. eauto.
Qed.

Lemma sampled_points_are_normalized_witness :
  well_formed circle_app /\
  exists a',
    animate (pure_fn circle) 4 2 blank_artists = Ok a' /\
    curve_point (drawn_curve a') 0 = Some (0, circle 0).
Proof.
  split; [exact circle_app_well_formed|].
  destruct (sampled_points_are_normalized circle 4 2 blank_artists circle_app
              circle_app_well_formed) as [(a' & Ha & Hpts) _].
  exists a'. split; [exact Ha|].
  apply (Hpts 0%nat 0).
  - apply linspace_first. lia.
  - unfold circle. lra.
Defined.

(** ** C3 *)

(** C3.  At every frame [i], with [r_i = f theta_i]: when [r_i >= 0] the
    filled point is at [(theta_i, r_i)] and the hollow marker is empty;
    when [r_i < 0] the filled point is at [(theta_i + pi, |r_i|)] and the
    hollow marker is at [(theta_i, 0)]. *)
Theorem marker_placement (f : R -> R) (frames i : nat) (a : Artists) :
  exists a',
    animate (pure_fn f) frames i a = Ok a' /\
    (f (frame_theta frames i) >= 0 ->
     point a' = ([frame_theta frames i], [f (frame_theta frames i)]) /\
     opposite_point a' = ([], [])) /\
    (f (frame_theta frames i) < 0 ->
     point a' = ([frame_theta frames i + PI], [Rabs (f (frame_theta frames i))]) /\
     opposite_point a' = ([frame_theta frames i], [0])).
Proof.
  destruct (animate_pure_fn f frames i a)
    as (a' & Ha & _ & _ & _ & _ & _ & _ & Hpt & _).
  exists a'. split; [assumption|].
  destruct (Rge_dec (f (frame_theta frames i)) 0) as [Hge|Hlt];
    injection Hpt as -> ->; split; intros; try (split; reflexivity); lra.
Qed.

(** ** C5 *)

Lemma normalize_loop_nonneg pts ts rs :
  Forall (fun r => r >= 0) rs ->
  Forall (fun r => r >= 0) (normalize_loop pts ts rs).2.
Proof.
  revert ts rs. induction pts as [|[t r] pts IH]; intros ts rs Hrs; cbn [normalize_loop].
  - assumption.
  - destruct (Rge_dec r 0) as [Hge|Hlt]; apply IH; apply Forall_app; split;
      try assumption; apply Forall_singleton; try assumption.
    apply Rle_ge, Rabs_pos.
Qed.

Lemma sample_nonneg f theta_start theta_end resolution curve :
  sample f theta_start theta_end resolution = Ok curve ->
  Forall (fun r => r >= 0) curve.2.
Proof.
  unfold sample. destruct (mapM f _) as [rs|]; [|discriminate].
  cbn. intros [= <-]. apply normalize_loop_nonneg. constructor.
Qed.

Lemma cartesian_antipode theta r :
  r < 0 -> cartesian (theta + PI, Rabs r) = (r * cos theta, r * sin theta).
Proof.
  intros Hr. unfold cartesian. cbn [fst snd].
  rewrite neg_cos, neg_sin, (Rabs_left r Hr). f_equal; ring.
Qed.

(** C5.  Every radius the normalisation produces (in a sampled curve, in
    the static plot, at the traced point of a frame) is non-negative, and
    for [r < 0] the pair [(theta + pi, |r|)] the loop emits is drawn at the
    Cartesian point [(r cos theta, r sin theta)] of the original pair
    [(theta, r)]. *)
Theorem normalization_invariant :
  (forall f theta_start theta_end resolution curve,
     sample f theta_start theta_end resolution = Ok curve ->
     Forall (fun r => r >= 0) curve.2) /\
  (forall f frames i a a',
     animate f frames i a = Ok a' ->
     Forall (fun r => r >= 0) (point a').2 /\
     Forall (fun r => r >= 0) (drawn_curve a').2) /\
  (forall self self' plot,
     update_static_plot self = Ok self' ->
     fig self' = Some plot ->
     Forall (fun r => r >= 0) (static_curve plot).2) /\
  (forall theta r,
     r < 0 ->
     normalize_loop [(theta, r)] [] [] = ([theta + PI], [Rabs r]) /\
     Rabs r >= 0 /\
     cartesian (theta + PI, Rabs r) = (r * cos theta, r * sin theta) /\
     cartesian (theta + PI, Rabs r) = cartesian (theta, r)).
Proof.
  split; [exact sample_nonneg|]. split; [|split].
  - intros f frames i a a'. unfold animate.
    destruct (f (frame_theta frames i)) as [r|]; [|discriminate].
    cbn [mbind result_bind].
    destruct (sample f 0 (frame_theta frames i) 100) as [curve|] eqn:Hs;
      [|destruct (Rge_dec r 0); discriminate].
    destruct (Rge_dec r 0) as [Hge|Hlt]; cbn; intros [= <-]; cbn [point drawn_curve];
      (split; [|exact (sample_nonneg _ _ _ _ _ Hs)]); apply Forall_singleton.
    + assumption.
    + apply Rle_ge, Rabs_pos.
  - intros self self' plot Hplot Hfig.
    destruct (update_static_plot_inv _ _ Hplot) as (thetas & rs & top & Hfig').
    rewrite Hfig' in Hfig. injection Hfig as <-. cbn [static_curve].
    apply normalize_loop_nonneg. constructor.
  - intros theta r Hr. split; [|split; [|split]].
    + cbn [normalize_loop]. destruct (Rge_dec r 0); [lra|reflexivity].
    + apply Rle_ge, Rabs_pos.
    + apply cartesian_antipode. assumption.
    + rewrite cartesian_antipode by assumption. reflexivity.
Qed.

Lemma normalization_invariant_witness :
  normalize_loop [(PI / 3, -3)] [] [] = ([PI / 3 + PI], [Rabs (-3)]) /\
  cartesian (PI / 3 + PI, Rabs (-3)) = cartesian (PI / 3, -3).
Proof.
  destruct normalization_invariant as (_ & _ & _ & H).
  destruct (H (PI / 3) (-3)) as (H1 & _ & _ & H2); [lra|].
  split; assumption.
Defined.

(** ** C6 *)

Lemma circle_sample_4 :
  sample (pure_fn circle) 0 (2 * PI) 4 =
    Ok ([0; 2 * PI / 3; 4 * PI / 3; 2 * PI], [2; 2; 2; 2]).
Proof.
  rewrite sample_pure_fn. unfold linspace, circle.
  cbn [seq fmap list_fmap zip_with normalize_loop Nat.sub INR app].
  destruct (Rge_dec 2 0) as [_|H]; [|lra].
  cbn [app]. do 2 f_equal. repeat f_equal; field.
Qed.

(** C6, as the program has it.  Sampling the constant function [2] over
    [0, 2*pi] at resolution 4 yields [(0,2), (2pi/3,2), (4pi/3,2),
    (2pi,2)]: the partition at resolution [n >= 2] has step
    [2*pi / (n - 1)] and its last sample is the endpoint [2*pi]. *)
Theorem static_partition_closed :
  (exists curve,
     sample (pure_fn circle) 0 (2 * PI) 4 = Ok curve /\
     zip curve.1 curve.2 =
       [(0, 2); (2 * PI / 3, 2); (4 * PI / 3, 2); (2 * PI, 2)]) /\
  (forall n k,
     (2 <= n)%nat -> (k < n)%nat ->
     linspace 0 (2 * PI) n !! k = Some (INR k * (2 * PI / INR (n - 1)))) /\
  (forall n,
     (2 <= n)%nat -> linspace 0 (2 * PI) n !! (n - 1)%nat = Some (2 * PI)).
Proof.
  split; [|split].
  - eexists. split; [exact circle_sample_4|]. reflexivity.
  - intros n k Hn Hk. rewrite linspace_lookup by assumption. f_equal.
    assert (0 < INR (n - 1)) by (apply lt_0_INR; lia).
    field. lra.
  - intros n Hn. apply linspace_last. assumption.
Qed.

Lemma static_partition_closed_witness :
  linspace 0 (2 * PI) 1000 !! 999%nat = Some (2 * PI).
Proof.
  destruct static_partition_closed as (_ & _ & H).
  apply (H 1000%nat). lia.
Defined.

(** The sequence C6 states, on the half-open interval with step
    [2*pi / n], is not what the sampler returns at resolution 4. *)
Lemma circle_sample_4_not_half_open :
  ~ exists curve,
      sample (pure_fn circle) 0 (2 * PI) 4 = Ok curve /\
      zip curve.1 curve.2 =
        [(0, 2); (PI / 2, 2); (PI, 2); (3 * PI / 2, 2)].
Proof.
  intros (curve & Hs & Hz). rewrite circle_sample_4 in Hs.
  injection Hs as <-. cbn in Hz.
  injection Hz as H _. pose proof PI_RGT_0. lra.
Qed.

(** ** Ticks of a running animation *)

Lemma init_pure_fn f a :
  init (pure_fn f) a =
    Ok {| ylim := ylim a;
          full_curve := full_curve a;
          line_trace := ([0; 0], [0; f 0]);
          point := ([0], [f 0]);
          opposite_point := ([], []);
          ray := ([0; 0], [0; (ylim a).2]);
          opposite_ray := ([0; PI], [0; (ylim a).2]);
          rays_collection := rays_collection a;
          drawn_curve := ([], []) |}.
Proof. reflexivity. Qed.

(** A tick inside the frame sequence is one call of [animate]. *)
Lemma tick_frame f frames interval i a :
  (i < frames)%nat ->
  exists a',
    animate (pure_fn f) frames i a = Ok a' /\
    tick (running_animation f frames interval i a) =
      Ok (running_animation f frames interval (S i) a').
Proof.
  intros Hi. destruct (animate_pure_fn f frames i a) as (a' & Ha & _).
  exists a'. split; [assumption|].
  unfold tick, running_animation.
  cbn [event_source frame_seq anim_frames anim_function axes anim_interval].
  rewrite decide_True by assumption. rewrite Ha. reflexivity.
Qed.

(** A tick on the exhausted sequence calls [init] and restarts it. *)
Lemma tick_restart f frames interval a :
  exists a',
    init (pure_fn f) a = Ok a' /\
    tick (running_animation f frames interval frames a) =
      Ok (running_animation f frames interval 0 a').
Proof.
  eexists. split; [apply init_pure_fn|].
  unfold tick, running_animation.
  cbn [event_source frame_seq anim_frames anim_function axes anim_interval].
  rewrite decide_False by lia. rewrite init_pure_fn. reflexivity.
Qed.

Lemma ticks_add m n ani :
  ticks (m + n) ani = ani' ← ticks m ani; ticks n ani'.
Proof.
  revert ani. induction m as [|m IH]; intros ani; cbn [ticks Nat.add].
  - reflexivity.
  - destruct (tick ani) as [ani1|]; cbn [mbind result_bind]; [apply IH|reflexivity].
Qed.

(** [k] ticks inside one pass over the frame sequence: the position
    advances by [k], the limits stay, and the ray trail gains the rays of
    the multiples of ten among the frames drawn, in order. *)
Lemma ticks_frames f frames interval k : forall i a,
  (i + k <= frames)%nat ->
  exists a',
    ticks k (running_animation f frames interval i a) =
      Ok (running_animation f frames interval (i + k) a') /\
    ylim a' = ylim a /\
    rays_collection a' =
      rays_collection a ++
      (trail_ray frames (ylim a).2 <$>
         filter (fun j => j `mod` 10 = 0)%nat (seq i k)).
Proof.
  induction k as [|k IH]; intros i a Hik.
  - exists a. cbn [ticks seq]. rewrite Nat.add_0_r, filter_nil, fmap_nil, app_nil_r.
    auto.
  - destruct (tick_frame f frames interval i a) as (a1 & Ha1 & Ht); [lia|].
    destruct (animate_pure_fn f frames i a)
      as (a1' & Ha1' & Hylim & _ & _ & _ & _ & Hrays & _).
    rewrite Ha1 in Ha1'. injection Ha1' as <-.
    destruct (IH (S i) a1) as (a' & Hticks & Hylim' & Hrays'); [lia|].
    exists a'. cbn [ticks]. rewrite Ht. cbn [mbind result_bind].
    rewrite Hticks. replace (S i + k)%nat with (i + S k)%nat by lia.
    split; [reflexivity|]. split; [congruence|].
    rewrite Hrays', Hrays, Hylim. cbn [seq].
    destruct (decide (i `mod` 10 = 0)%nat) as [H0|H0].
    + rewrite filter_cons_True by assumption. rewrite fmap_cons, <- app_assoc.
      reflexivity.
    + rewrite filter_cons_False by assumption. reflexivity.
Qed.

(** The multiples of ten among the frames [0..i]. *)
Lemma multiples_of_ten_upto i :
  length (filter (fun j => j `mod` 10 = 0)%nat (seq 0 (S i))) = (i `div` 10 + 1)%nat.
Proof.
  induction i as [|i IH]; [reflexivity|].
  rewrite seq_S, filter_app, length_app, IH. cbn [Nat.add seq].
  pose proof (Nat.div_mod_eq i 10). pose proof (Nat.div_mod_eq (S i) 10).
  pose proof (Nat.mod_upper_bound i 10). pose proof (Nat.mod_upper_bound (S i) 10).
  destruct (decide (S i `mod` 10 = 0)%nat) as [Hten|Hten].
  - rewrite filter_cons_True by assumption. rewrite filter_nil.
    cbn [length]. lia.
  - rewrite filter_cons_False by assumption. rewrite filter_nil. cbn [length]. lia.
Qed.

Lemma frame_theta_lt frames j k :
  (0 < frames)%nat -> (j < k)%nat -> frame_theta frames j < frame_theta frames k.
Proof.
  intros HF Hjk. unfold frame_theta.
  assert (0 < INR frames) by (apply lt_0_INR; assumption).
  assert (INR j < INR k) by (apply lt_INR; assumption).
  pose proof PI_RGT_0.
  apply Rmult_lt_compat_r; [apply Rinv_0_lt_compat; assumption|].
  apply Rmult_lt_compat_l; lra.
Qed.

Lemma frame_theta_0 frames : frame_theta frames 0 = 0.
Proof. unfold frame_theta. cbn [INR]. unfold Rdiv. ring. Qed.

Lemma frame_theta_full frames : (0 < frames)%nat -> frame_theta frames frames = 2 * PI.
Proof.
  intros HF. unfold frame_theta.
  assert (0 < INR frames) by (apply lt_0_INR; assumption).
  field. lra.
Qed.

(** The tick that delivers frame [n]: the [n+1]-th tick after the start
    of a cycle leaves the ray at [theta_n]. *)
Lemma ticks_ray f frames interval n a :
  (n < frames)%nat ->
  exists a',
    ticks (S n) (running_animation f frames interval 0 a) =
      Ok (running_animation f frames interval (S n) a') /\
    ylim a' = ylim a /\
    ray a' = ([0; frame_theta frames n], [0; (ylim a).2]).
Proof.
  intros Hn.
  destruct (ticks_frames f frames interval n 0 a) as (a1 & Hticks & Hylim & _); [lia|].
  destruct (tick_frame f frames interval n a1 Hn) as (a' & Ha & Htick).
  destruct (animate_pure_fn f frames n a1) as (a'' & Ha' & Hylim' & _ & _ & Hray & _).
  rewrite Ha in Ha'. injection Ha' as <-.
  exists a'. split.
  - pose proof (ticks_add n 1 (running_animation f frames interval 0 a)) as Hadd.
    rewrite Hticks in Hadd. cbn [mbind result_bind Nat.add ticks] in Hadd.
    rewrite Htick in Hadd. cbn [mbind result_bind mret result_ret] in Hadd.
    replace (n + 1)%nat with (S n) in Hadd by lia. exact Hadd.
  - split; [congruence|]. rewrite Hray, Hylim. reflexivity.
Qed.

(** ** C9 *)

Lemma animate_rays f frames i a a' :
  animate f frames i a = Ok a' ->
  rays_collection a' =
    if decide (i `mod` 10 = 0)%nat
    then rays_collection a ++ [trail_ray frames (ylim a).2 i]
    else rays_collection a.
Proof.
  unfold animate.
  destruct (f (frame_theta frames i)) as [r|]; [|discriminate].
  cbn [mbind result_bind].
  destruct (sample f 0 (frame_theta frames i) 100) as [curve|];
    destruct (Rge_dec r 0); try discriminate;
    cbn [mbind result_bind mret result_ret]; intros [= <-]; reflexivity.
Qed.

Lemma init_rays f a a' : init f a = Ok a' -> rays_collection a' = rays_collection a.
Proof.
  unfold init. destruct (f 0) as [r|]; [|discriminate].
  cbn [mbind result_bind mret result_ret]. intros [= <-]. reflexivity.
Qed.

(** No tick removes a ray: the trail before a tick is a prefix of the
    trail after it, whatever the function and the state. *)
Lemma tick_rays_prefix ani ani' :
  tick ani = Ok ani' ->
  rays_collection (axes ani) `prefix_of` rays_collection (axes ani').
Proof.
  unfold tick. destruct (event_source ani) as [[|]|]; try (intros [= <-]; reflexivity).
  case_decide.
  - destruct (animate _ _ _ _) as [a'|] eqn:Ha; [|discriminate].
    cbn [mbind result_bind mret result_ret]. intros [= <-]. cbn [axes].
    rewrite (animate_rays _ _ _ _ _ Ha). case_decide; [|reflexivity].
    apply prefix_app_r. reflexivity.
  - destruct (init _ _) as [a'|] eqn:Ha; [|discriminate].
    cbn [mbind result_bind mret result_ret]. intros [= <-]. cbn [axes].
    rewrite (init_rays _ _ _ Ha). reflexivity.
Qed.

(** Whole cycles: [frames] frames and the restarting tick, [c] times. *)
Lemma ticks_cycles f frames interval c : forall a,
  exists a',
    ticks (c * S frames) (running_animation f frames interval 0 a) =
      Ok (running_animation f frames interval 0 a') /\
    ylim a' = ylim a /\
    length (rays_collection a') =
      (length (rays_collection a) +
       c * length (filter (fun j => j `mod` 10 = 0)%nat (seq 0 frames)))%nat.
Proof.
  induction c as [|c IH]; intros a.
  - exists a. cbn [Nat.mul ticks]. split; [reflexivity|]. split; [reflexivity|]. lia.
  - destruct (ticks_frames f frames interval frames 0 a) as (a1 & Hticks & Hylim & Hrays);
      [lia|].
    destruct (tick_restart f frames interval a1) as (a2 & Hinit & Ht).
    rewrite init_pure_fn in Hinit. injection Hinit as <-.
    match type of Ht with context [running_animation _ _ _ 0 ?x] =>
      destruct (IH x) as (a' & Hc & Hylim' & Hlen) end.
    exists a'. cbn [ylim rays_collection] in Hylim', Hlen.
    replace (S c * S frames)%nat with (frames + (1 + c * S frames))%nat by lia.
    rewrite ticks_add. cbn [Nat.add] in Hticks. rewrite Hticks.
    cbn [mbind result_bind]. rewrite ticks_add. cbn [ticks].
    rewrite Ht. cbn [mbind result_bind mret result_ret]. rewrite Hc.
    split; [reflexivity|]. split; [congruence|].
    rewrite Hlen, Hrays, length_app, length_fmap. lia.
Qed.

(** C9.  While running, a tick delivering frame [i] appends exactly one
    ray at [theta_i] to the trail when [i] is a multiple of 10 and leaves
    the trail alone otherwise, as does the tick that restarts the frame
    sequence; no tick removes an entry; after frames [0..i] of the first
    cycle the trail holds [i / 10 + 1] rays; and over repeated cycles the
    trail grows beyond every bound. *)
Theorem ray_trail_growth (f : R -> R) (frames : nat) (interval : Z) :
  (forall i a,
     (i < frames)%nat ->
     exists a',
       tick (running_animation f frames interval i a) =
         Ok (running_animation f frames interval (S i) a') /\
       rays_collection a' =
         if decide (i `mod` 10 = 0)%nat
         then rays_collection a ++ [([0; frame_theta frames i], [0; (ylim a).2])]
         else rays_collection a) /\
  (forall a,
     exists a',
       tick (running_animation f frames interval frames a) =
         Ok (running_animation f frames interval 0 a') /\
       rays_collection a' = rays_collection a) /\
  (forall ani ani',
     tick ani = Ok ani' ->
     rays_collection (axes ani) `prefix_of` rays_collection (axes ani')) /\
  (forall i a,
     (i < frames)%nat ->
     rays_collection a = [] ->
     exists a',
       ticks (S i) (running_animation f frames interval 0 a) =
         Ok (running_animation f frames interval (S i) a') /\
       length (rays_collection a') = (i `div` 10 + 1)%nat) /\
  ((0 < frames)%nat ->
   forall a N,
     exists n a',
       ticks n (running_animation f frames interval 0 a) =
         Ok (running_animation f frames interval 0 a') /\
       (N <= length (rays_collection a'))%nat).
Proof.
  split; [|split; [|split; [exact tick_rays_prefix|split]]].
  - intros i a Hi. destruct (tick_frame f frames interval i a Hi) as (a' & Ha & Ht).
    exists a'. split; [exact Ht|]. exact (animate_rays _ _ _ _ _ Ha).
  - intros a. destruct (tick_restart f frames interval a) as (a' & Hinit & Ht).
    exists a'. split; [exact Ht|]. exact (init_rays _ _ _ Hinit).
  - intros i a Hi Hempty.
    destruct (ticks_frames f frames interval (S i) 0 a) as (a' & Hticks & _ & Hrays);
      [lia|].
    exists a'. split; [exact Hticks|].
    rewrite Hrays, Hempty, app_nil_l, length_fmap. apply multiples_of_ten_upto.
  - intros HF a N.
    destruct (ticks_cycles f frames interval N a) as (a' & Hc & _ & Hlen).
    exists (N * S frames)%nat, a'. split; [exact Hc|].
    destruct frames as [|m]; [lia|].
    rewrite multiples_of_ten_upto in Hlen. nia.
Qed.

(** ** C10 *)

(** C10.  The registry holds the five families, and for any other equation
    name the evaluation function returns 0 at every angle whatever the
    coefficient values are, also when none is present: it looks none up. *)
Theorem unregistered_equation_is_zero :
  equations.*1 = ["Circle"; "Cardioid"; "Rose"; "Spiral"; "Limacon"] /\
  forall (equation_name : string) (coef_values : gmap string R) (theta : R),
    equation_name ∉ equations.*1 ->
    current_function equation_name coef_values theta = Ok 0.
Proof.
  split; [reflexivity|].
  intros equation_name coef_values theta Hname.
  unfold current_function.
  repeat case_decide; try reflexivity; subst equation_name;
    exfalso; apply Hname; cbn; set_solver.
Qed.

Lemma unregistered_equation_is_zero_witness :
  current_function "Ellipse" ∅ 1 = Ok 0.
Proof.
  destruct unregistered_equation_is_zero as [_ H].
  apply H. rewrite list_elem_of_In. cbn. intuition discriminate.
Defined.

(** ** Starting an animation *)

Lemma create_artists_ok (f : pyfun) :
  (forall x, exists r, f x = Ok r) ->
  exists a, create_artists f = Ok a /\ rays_collection a = [].
Proof.
  intros Hf. unfold create_artists.
  destruct (mapM_result_total f (linspace 0 (2 * PI) 1000) Hf) as [rs Hrs].
  destruct (mapM_result_lookup _ _ _ Hrs) as [Hlen _].
  rewrite linspace_length in Hlen.
  destruct (py_min_ok rs) as [lo Hlo]; [lia|].
  destruct (py_max_ok rs) as [hi Hhi]; [lia|].
  destruct (Hf 0) as [r0 Hr0].
  rewrite Hrs. cbn [mbind result_bind]. rewrite Hlo, Hhi. cbn [mbind result_bind].
  rewrite Hr0. cbn [mbind result_bind mret result_ret].
  eexists. split; reflexivity.
Qed.

(** An animation of [frames] frames as [polar_animator] returns it and the
    first draw of its window starts it. *)
Lemma polar_animator_started f frames interval :
  exists a,
    (ani ← polar_animator (pure_fn f) frames interval; first_draw ani) =
      Ok (running_animation f frames interval 0 a).
Proof.
  destruct (create_artists_ok (pure_fn f)) as (a0 & Ha0 & _).
  { intros x. exists (f x). reflexivity. }
  unfold polar_animator. rewrite Ha0. cbn [mbind result_bind mret result_ret].
  unfold first_draw. cbn [anim_function axes anim_frames anim_interval].
  rewrite init_pure_fn. cbn [mbind result_bind mret result_ret].
  eexists. reflexivity.
Qed.

(** On a well-formed application [start_animation] returns, with an
    animation of 200 frames whose timer runs and whose frame sequence
    stands at index 0. *)
Lemma start_animation_ok self :
  well_formed self ->
  exists self' ani,
    start_animation self = Ok self' /\
    animation self' = Some ani /\
    is_paused self' = false /\
    event_source ani = Some true /\
    frame_seq ani = 0%nat /\
    anim_frames ani = 200%nat /\
    anim_function ani = current_function (equation_var self) (sliders self) /\
    rays_collection (axes ani) = [].
Proof.
  intros Hwf. pose proof Hwf as Hwf'. unfold well_formed in Hwf'.
  destruct (assoc equations (equation_var self)) as [data|] eqn:Hdata; [|contradiction].
  destruct (create_artists_ok _ (current_function_total self Hwf)) as (a & Ha & Hrays).
  destruct (current_function_total self Hwf 0) as [r0 Hr0].
  unfold start_animation, polar_animator, first_draw, init. rewrite Hdata.
  cbn [mbind result_bind]. rewrite Ha.
  cbn [mbind result_bind mret result_ret anim_function axes]. rewrite Hr0.
  cbn [mbind result_bind mret result_ret].
  eexists. eexists. split; [reflexivity|].
  cbn [animation is_paused event_source frame_seq anim_frames anim_function axes
       rays_collection].
  auto 10.
Qed.

(** What [start_animation] leaves behind is a running animation of a
    total function, at index 0 with an empty ray trail: the animations the
    tick lemmas speak about. *)
Lemma start_animation_running self :
  well_formed self ->
  exists self' f a,
    start_animation self = Ok self' /\
    animation self' =
      Some (running_animation f 200 (100 - speed_var self) 0 a) /\
    rays_collection a = [].
Proof.
  intros Hwf. destruct (current_function_pure self Hwf) as [f Hf].
  pose proof Hwf as Hwf'. unfold well_formed in Hwf'.
  destruct (assoc equations (equation_var self)) as [data|] eqn:Hdata; [|contradiction].
  destruct (create_artists_ok (pure_fn f)) as (a & Ha & Hrays).
  { intros x. exists (f x). reflexivity. }
  unfold start_animation, polar_animator, first_draw. rewrite Hdata.
  cbn [mbind result_bind]. rewrite Hf, Ha.
  cbn [mbind result_bind mret result_ret anim_function axes].
  rewrite init_pure_fn. cbn [mbind result_bind mret result_ret].
  eexists. exists f. eexists. split; [reflexivity|].
  cbn [animation anim_frames anim_interval]. split; [reflexivity|].
  cbn [rays_collection]. exact Hrays.
Qed.

(** The first eleven frames of the animation the application starts on
    Circle leave two rays, those of frames 0 and 10. *)
Lemma ray_trail_growth_witness :
  exists self f a,
    start_animation circle_app = Ok self /\
    animation self = Some (running_animation f 200 50 0 a) /\
    exists a',
      ticks 11 (running_animation f 200 50 0 a) =
        Ok (running_animation f 200 50 11 a') /\
      length (rays_collection a') = 2%nat.
Proof.
  destruct (start_animation_running circle_app circle_app_well_formed)
    as (self & f & a & Hstart & Hani & Hrays).
  exists self, f, a. split; [exact Hstart|]. split; [exact Hani|].
  destruct (ray_trail_growth f 200 50) as (_ & _ & _ & H & _).
  destruct (H 10%nat a) as (a' & Ht & Hlen); [lia|exact Hrays|].
  exists a'. split; [exact Ht|exact Hlen].
Defined.

(** ** C4 *)

(** C4, as the code has it.  In a run with [frames = F > 0] the angle the
    per-frame update computes for frame [i] is [2*pi*i/F], and it grows
    strictly with [i].  The ticks deliver the frames one behind their
    count: tick [n+1] of a cycle draws frame [n], so the ray then stands at
    [theta_n].  After the [F] frames of a cycle there is no frame [F]: the
    next tick redraws the initial state, ray at angle 0, and restarts the
    sequence at index 0.  With [frames = 4], two ticks after the start the
    sequence stands at 2 and the ray at [pi/2]; the third tick brings it to
    [theta_2 = pi]. *)
Theorem frame_angle (f : R -> R) (frames : nat) (interval : Z) (a : Artists) :
  (0 < frames)%nat ->
  (forall i, exists a',
     animate (pure_fn f) frames i a = Ok a' /\
     ray a' = ([0; 2 * PI * INR i / INR frames], [0; (ylim a).2])) /\
  (forall j k, (j < k)%nat -> frame_theta frames j < frame_theta frames k) /\
  (forall n, (n < frames)%nat ->
     exists a',
       ticks (S n) (running_animation f frames interval 0 a) =
         Ok (running_animation f frames interval (S n) a') /\
       ray a' = ([0; 2 * PI * INR n / INR frames], [0; (ylim a).2])) /\
  (frame_theta frames 0 = 0 /\
   exists a1 a2,
     ticks frames (running_animation f frames interval 0 a) =
       Ok (running_animation f frames interval frames a1) /\
     tick (running_animation f frames interval frames a1) =
       Ok (running_animation f frames interval 0 a2) /\
     ray a2 = ([0; 0], [0; (ylim a).2])) /\
  (exists a2 a3,
     ticks 2 (running_animation f 4 interval 0 a) =
       Ok (running_animation f 4 interval 2 a2) /\
     ray a2 = ([0; PI / 2], [0; (ylim a).2]) /\
     ticks 3 (running_animation f 4 interval 0 a) =
       Ok (running_animation f 4 interval 3 a3) /\
     ray a3 = ([0; PI], [0; (ylim a).2])).
Proof.
  intros HF. split; [|split; [|split; [|split]]].
  - intros i.
    destruct (animate_pure_fn f frames i a) as (a' & Ha & _ & _ & _ & Hray & _).
    exists a'. split; assumption.
  - intros j k. apply frame_theta_lt. assumption.
  - intros n Hn.
    destruct (ticks_ray f frames interval n a Hn) as (a' & Hticks & _ & Hray).
    exists a'. split; assumption.
  - split; [apply frame_theta_0|].
    destruct (ticks_frames f frames interval frames 0 a) as (a1 & Hticks & Hylim & _);
      [lia|].
    destruct (tick_restart f frames interval a1) as (a2 & Hinit & Ht).
    exists a1, a2. split; [exact Hticks|]. split; [exact Ht|].
    rewrite init_pure_fn in Hinit. injection Hinit as <-.
    cbn [ray]. rewrite Hylim. reflexivity.
  - destruct (ticks_ray f 4 interval 1 a) as (a2 & Hticks2 & _ & Hray2); [lia|].
    destruct (ticks_ray f 4 interval 2 a) as (a3 & Hticks3 & _ & Hray3); [lia|].
    assert (Hth1 : frame_theta 4 1 = PI / 2).
    { unfold frame_theta. cbn [INR]. field. }
    assert (Hth2 : frame_theta 4 2 = PI).
    { unfold frame_theta. cbn [INR]. field. }
    rewrite Hth1 in Hray2. rewrite Hth2 in Hray3.
    exists a2, a3. repeat split; assumption.
Qed.

Lemma frame_angle_witness :
  (0 < 4)%nat /\
  exists a a2,
    (ani ← polar_animator (pure_fn circle) 4 100; first_draw ani) =
      Ok (running_animation circle 4 100 0 a) /\
    ticks 2 (running_animation circle 4 100 0 a) =
      Ok (running_animation circle 4 100 2 a2) /\
    ray a2 = ([0; PI / 2], [0; (ylim a).2]).
Proof.
  assert (H4 : (0 < 4)%nat) by lia.
  split; [exact H4|].
  destruct (polar_animator_started circle 4 100) as [a Ha].
  destruct (frame_angle circle 4 100 a H4)
    as (_ & _ & _ & _ & a2 & a3 & Hticks & Hray & _).
  exists a, a2. split; [exact Ha|]. split; assumption.
Defined.

(** With [frames = 4], two ticks after the animation is started the
    frames drawn are 0 and 1: the frame sequence stands at 2, but the angle
    the per-frame update computed last is [pi/2], not [pi]. *)
Lemma two_ticks_angle_not_pi :
  exists ani ani',
    (ani0 ← polar_animator (pure_fn circle) 4 100; first_draw ani0) = Ok ani /\
    ticks 2 ani = Ok ani' /\
    frame_seq ani' = 2%nat /\
    (ray (axes ani')).1 = [0; PI / 2] /\
    (ray (axes ani')).1 <> [0; PI].
Proof.
  destruct (polar_animator_started circle 4 100) as [a Ha].
  destruct (ticks_ray circle 4 100 1 a) as (a2 & Hticks & _ & Hray); [lia|].
  assert (Hth : frame_theta 4 1 = PI / 2).
  { unfold frame_theta. cbn [INR]. field. }
  rewrite Hth in Hray.
  eexists. eexists. split; [exact Ha|]. split; [exact Hticks|].
  cbn [running_animation frame_seq axes]. split; [reflexivity|].
  rewrite Hray. cbn [fst]. split; [reflexivity|].
  intros [= H]. pose proof PI_RGT_0. lra.
Qed.

(** ** C7 *)

Lemma set_timer_back ani :
  event_source ani = Some true -> set_timer (set_timer ani false) true = ani.
Proof. destruct ani. cbn. intros ->. reflexivity. Qed.

(** Ticks reach the application through the animation it holds. *)
Lemma app_ticks_animation n : forall self ani,
  animation self = Some ani ->
  animation <$> app_ticks n self = Some <$> ticks n ani.
Proof.
  induction n as [|n IH]; intros self ani Hani; cbn [app_ticks ticks].
  - cbn. rewrite Hani. reflexivity.
  - unfold app_tick. rewrite Hani.
    destruct (tick ani) as [ani'|]; cbn [mbind result_bind mret result_ret];
      [|reflexivity].
    apply IH. reflexivity.
Qed.

(** C7.  From a running application, pause then resume with no tick in
    between: while paused the timer delivers nothing (any number of timer
    events leaves the whole application unchanged, so the frame index and
    the artists are those at the pause), and after the resume the
    application holds the very animation it held before the pause, so the
    ticks that follow are exactly the ticks that would have followed
    without the pause: none replayed, none skipped. *)
Theorem pause_resume_preserves_frame (self : App) (ani : FuncAnimation) :
  animation self = Some ani ->
  event_source ani = Some true ->
  is_paused self = false ->
  exists paused resumed,
    toggle_pause self = Ok paused /\
    state_of paused = Paused /\
    frame_seq <$> animation paused = Some (frame_seq ani) /\
    axes <$> animation paused = Some (axes ani) /\
    (forall n, app_ticks n paused = Ok paused) /\
    toggle_pause paused = Ok resumed /\
    state_of resumed = Running /\
    animation resumed = Some ani /\
    (forall n, animation <$> app_ticks n resumed = Some <$> ticks n ani).
Proof.
  intros Hani Hrun Hpaused.
  exists (toggled self ani false "Resume" true).
  exists (toggled (toggled self ani false "Resume" true)
                  (set_timer ani false) true "Pause" false).
  assert (Hback := set_timer_back ani Hrun).
  split; [|split; [|split; [|split; [|split; [|split; [|split; [|split]]]]]]].
  - unfold toggle_pause, active_animation. rewrite Hani, Hrun, Hpaused. reflexivity.
  - reflexivity.
  - reflexivity.
  - reflexivity.
  - induction n as [|n IH]; [reflexivity|].
    cbn [app_ticks]. unfold app_tick at 1. cbn. exact IH.
  - reflexivity.
  - reflexivity.
  - cbn [toggled animation]. rewrite Hback. reflexivity.
  - intros n. apply app_ticks_animation. cbn [toggled animation].
    rewrite Hback. reflexivity.
Qed.

Lemma pause_resume_preserves_frame_witness :
  exists self ani,
    start_animation circle_app = Ok self /\
    animation self = Some ani /\
    frame_seq ani = 0%nat /\
    exists paused resumed,
      toggle_pause self = Ok paused /\
      frame_seq <$> animation paused = Some 0%nat /\
      toggle_pause paused = Ok resumed /\
      animation resumed = Some ani.
Proof.
  destruct (start_animation_ok circle_app circle_app_well_formed)
    as (self & ani & Hstart & Hani & Hp & Hrun & Hseq & _).
  exists self, ani. split; [exact Hstart|]. split; [exact Hani|]. split; [exact Hseq|].
  destruct (pause_resume_preserves_frame self ani Hani Hrun Hp)
    as (paused & resumed & H1 & _ & H2 & _ & _ & H3 & _ & H4 & _).
  exists paused, resumed. rewrite Hseq in H2. auto.
Defined.

(** ** C8 *)



(** ** C2 *)

Lemma mapM_ext_result (f g : pyfun) (l : list R) :
  (forall x, f x = g x) -> mapM f l = mapM g l.
Proof.
  intros Hfg. induction l as [|x l IH]; [reflexivity|].
  cbn [mapM]. rewrite Hfg, IH. reflexivity.
Qed.

(** The reference curve of [polar_animator] (lines 43-49) pairs every
    sampled angle with the absolute value of the radius there. *)
Lemma create_artists_full_curve (g : pyfun) (f : R -> R) :
  (forall x, g x = Ok (f x)) ->
  exists a,
    create_artists g = Ok a /\
    full_curve a =
      (linspace 0 (2 * PI) 1000, Rabs <$> (f <$> linspace 0 (2 * PI) 1000)).
Proof.
  intros Hg. unfold create_artists.
  rewrite (mapM_ext_result g (pure_fn f)) by exact Hg.
  rewrite mapM_pure_fn. cbn [mbind result_bind].
  destruct (py_min_ok (f <$> linspace 0 (2 * PI) 1000)) as [lo Hlo].
  { rewrite length_fmap, linspace_length. lia. }
  destruct (py_max_ok (f <$> linspace 0 (2 * PI) 1000)) as [hi Hhi].
  { rewrite length_fmap, linspace_length. lia. }
  rewrite Hlo, Hhi. cbn [mbind result_bind]. rewrite Hg.
  cbn [mbind result_bind mret result_ret].
  eexists. split; reflexivity.
Qed.

Lemma full_curve_point (f : R -> R) k theta :
  linspace 0 (2 * PI) 1000 !! k = Some theta ->
  curve_point
    (linspace 0 (2 * PI) 1000, Rabs <$> (f <$> linspace 0 (2 * PI) 1000)) k =
    Some (theta, Rabs (f theta)).
Proof.
  intros Hk. unfold curve_point. cbn [fst snd].
  rewrite lookup_zip_with, Hk. cbn.
  rewrite !list_lookup_fmap, Hk. reflexivity.
Qed.

(** Rose with its default coefficients [a = 3], [n = 3] is the example
    function [rose]. *)
Lemma rose_app_function theta :
  current_function (equation_var rose_app) (sliders rose_app) theta = Ok (rose theta).
Proof.
  unfold current_function, rose_app, example_app, getitem.
  cbn [equation_var sliders].
  rewrite decide_False by discriminate. rewrite decide_False by discriminate.
  rewrite decide_True by reflexivity.
  rewrite lookup_insert_eq. cbn [mbind result_bind].
  rewrite lookup_insert_ne by discriminate. rewrite lookup_singleton_eq.
  reflexivity.
Qed.

(** Sample 167 of the 1000 lies just past [pi/3], where [rose] is
    negative. *)
Lemma rose_sample_167 :
  exists theta,
    linspace 0 (2 * PI) 1000 !! 167%nat = Some theta /\
    3 * theta = PI / 333 + PI /\
    rose theta < 0.
Proof.
  eexists. split; [apply linspace_lookup; lia|].
  assert (H167 : INR 167 = 167) by (rewrite INR_IZR_INZ; reflexivity).
  assert (H999 : INR (1000 - 1) = 999) by (rewrite INR_IZR_INZ; reflexivity).
  rewrite H167, H999.
  assert (Hangle : 3 * (167 * ((2 * PI - 0) / 999) + 0) = PI / 333 + PI) by field.
  split; [exact Hangle|].
  unfold rose. rewrite Hangle, neg_cos.
  pose proof PI_RGT_0.
  assert (0 < cos (PI / 333)) by (apply cos_gt_0; lra).
  lra.
Qed.

Lemma cartesian_abs_differs theta r :
  r < 0 -> cartesian (theta, Rabs r) <> cartesian (theta, r).
Proof.
  intros Hr. unfold cartesian. cbn [fst snd]. rewrite (Rabs_left r Hr).
  intros [= Hc Hs].
  assert (cos theta = 0) by nra.
  assert (sin theta = 0) by nra.
  pose proof (sin2_cos2 theta) as H1. unfold Rsqr in H1. nra.
Qed.

(** C2, at the program's own Rose curve.  Starting the animation of Rose
    with the default coefficients draws a reference curve whose sample 167
    has a negative radius and is plotted at [(theta, |r|)]: the angle is
    not moved to [theta + pi], and the plotted point is not the Cartesian
    point of [(theta, r)].  The reference curve of every total function is
    built this way. *)
Theorem reference_curve_not_remapped :
  (forall f : R -> R,
     exists a,
       create_artists (pure_fn f) = Ok a /\
       forall k theta,
         linspace 0 (2 * PI) 1000 !! k = Some theta ->
         curve_point (full_curve a) k = Some (theta, Rabs (f theta))) /\
  (exists self ani theta,
     start_animation rose_app = Ok self /\
     animation self = Some ani /\
     linspace 0 (2 * PI) 1000 !! 167%nat = Some theta /\
     rose theta < 0 /\
     curve_point (full_curve (axes ani)) 167 = Some (theta, Rabs (rose theta)) /\
     (theta, Rabs (rose theta)) <> (theta + PI, Rabs (rose theta)) /\
     cartesian (theta, Rabs (rose theta)) <> cartesian (theta, rose theta)).
Proof.
  split.
  - intros f.
    destruct (create_artists_full_curve (pure_fn f) f (fun x => eq_refl))
      as (a & Ha & Hfull).
    exists a. split; [exact Ha|]. intros k theta Hk.
    rewrite Hfull. apply full_curve_point. exact Hk.
  - destruct rose_sample_167 as (theta & Hk & _ & Hneg).
    destruct (create_artists_full_curve _ rose rose_app_function) as (a & Ha & Hfull).
    pose proof rose_app_well_formed as Hwf. unfold well_formed in Hwf.
    destruct (assoc equations (equation_var rose_app)) as [data|] eqn:Hdata;
      [|contradiction].
    eexists. eexists. exists theta. split.
    { unfold start_animation, polar_animator, first_draw, init. rewrite Hdata.
      cbn [mbind result_bind]. rewrite Ha.
      cbn [mbind result_bind mret result_ret anim_function axes].
      rewrite rose_app_function. cbn [mbind result_bind mret result_ret].
      reflexivity. }
    split; [reflexivity|]. split; [exact Hk|]. split; [exact Hneg|].
    cbn [axes full_curve]. rewrite Hfull.
    split; [apply full_curve_point; exact Hk|].
    split; [|apply cartesian_abs_differs; exact Hneg].
    intros [= H]. pose proof PI_RGT_0. lra.
Qed.

(** * Further properties of the code *)

(** ** Bounds of the builtins *)

Lemma foldl_Rmin_le (l : list R) : forall x,
  foldl Rmin x l <= x /\ forall y, y ∈ l -> foldl Rmin x l <= y.
Proof.
  induction l as [|z l IH]; intros x; cbn [foldl].
  - split; [lra|]. intros y Hy. inversion Hy.
  - destruct (IH (Rmin x z)) as [H1 H2].
    pose proof (Rmin_l x z). pose proof (Rmin_r x z).
    split; [lra|]. intros y Hy. apply elem_of_cons in Hy as [->|Hy]; [lra|auto].
Qed.

Lemma foldl_Rmax_ge (l : list R) : forall x,
  x <= foldl Rmax x l /\ forall y, y ∈ l -> y <= foldl Rmax x l.
Proof.
  induction l as [|z l IH]; intros x; cbn [foldl].
  - split; [lra|]. intros y Hy. inversion Hy.
  - destruct (IH (Rmax x z)) as [H1 H2].
    pose proof (Rmax_l x z). pose proof (Rmax_r x z).
    split; [lra|]. intros y Hy. apply elem_of_cons in Hy as [->|Hy]; [lra|auto].
Qed.

Lemma py_min_le l lo y : py_min l = Ok lo -> y ∈ l -> lo <= y.
Proof.
  destruct l as [|x l]; [discriminate|]. cbn. intros [= <-] Hy.
  destruct (foldl_Rmin_le l x) as [H1 H2].
  apply elem_of_cons in Hy as [->|Hy]; auto.
Qed.

Lemma py_max_ge l hi y : py_max l = Ok hi -> y ∈ l -> y <= hi.
Proof.
  destruct l as [|x l]; [discriminate|]. cbn. intros [= <-] Hy.
  destruct (foldl_Rmax_ge l x) as [H1 H2].
  apply elem_of_cons in Hy as [->|Hy]; auto.
Qed.

(** Every radius the loop appends is the absolute value of a radius it was
    given. *)
Lemma normalize_loop_radii pts : forall ts rs x,
  x ∈ (normalize_loop pts ts rs).2 ->
  x ∈ rs \/ exists p, p ∈ pts /\ x = Rabs p.2.
Proof.
  induction pts as [|[t r] pts IH]; intros ts rs x; cbn [normalize_loop].
  - auto.
  - destruct (Rge_dec r 0) as [Hge|Hlt]; intros Hx; apply IH in Hx as [Hx|(p & Hp & ->)].
    + apply elem_of_app in Hx as [Hx|Hx]; [auto|].
      apply list_elem_of_singleton in Hx as ->. right. exists (t, r).
      split; [left|]. cbn. rewrite Rabs_right; auto.
    + right. exists p. split; [right; assumption|reflexivity].
    + apply elem_of_app in Hx as [Hx|Hx]; [auto|].
      apply list_elem_of_singleton in Hx as ->. right. exists (t, r).
      split; [left|]. reflexivity.
    + right. exists p. split; [right; assumption|reflexivity].
Qed.

Lemma elem_of_zip_r (ts rs : list R) p : p ∈ zip ts rs -> p.2 ∈ rs.
Proof.
  intros Hp. apply list_elem_of_lookup in Hp as [k Hk].
  apply lookup_zip_with_Some in Hk as (t & r & -> & _ & Hr).
  cbn. apply list_elem_of_lookup. eauto.
Qed.

(** ** The limits of the axes cover what is plotted *)

Lemma update_static_plot_inv_full self self' :
  update_static_plot self = Ok self' ->
  exists data thetas rs lo hi,
    thetas = linspace 0 (2 * PI) 1000 /\
    assoc equations (equation_var self) = Ok data /\
    mapM (current_function (equation_var self) (sliders self)) thetas = Ok rs /\
    py_min rs = Ok lo /\ py_max rs = Ok hi /\
    fig self' =
      Some {| static_ylim := (0, 1.1 * Rmax (if Rlt_dec lo 0 then Rabs lo else 0) hi);
              static_curve := normalize_loop (zip thetas rs) [] [] |}.
Proof.
  unfold update_static_plot. remember (linspace 0 (2 * PI) 1000) as thetas eqn:Hth.
  destruct (assoc equations (equation_var self)) as [data|] eqn:Hdata; [|discriminate].
  cbn [mbind result_bind].
  destruct (mapM _ thetas) as [rs|] eqn:Hrs; [|discriminate]. cbn [mbind result_bind].
  destruct (py_min rs) as [lo|] eqn:Hlo; [|discriminate]. cbn [mbind result_bind].
  destruct (py_max rs) as [hi|] eqn:Hhi; [|discriminate].
  cbn [mbind result_bind mret result_ret].
  intros [= <-]. cbn [fig]. exists data, thetas, rs, lo, hi.
  repeat split; assumption || reflexivity.
Qed.

(** Whenever [update_static_plot] returns, the radial axis it sets starts
    at 0 and reaches at least as far as every radius of the curve it
    plots: the curve never leaves the axes. *)
Theorem static_plot_within_limits (self self' : App) (plot : StaticPlot) (r : R) :
  update_static_plot self = Ok self' ->
  fig self' = Some plot ->
  r ∈ (static_curve plot).2 ->
  (static_ylim plot).1 = 0 /\ 0 <= r <= (static_ylim plot).2.
Proof.
  intros Hplot Hfig Hr.
  destruct (update_static_plot_inv_full _ _ Hplot)
    as (data & thetas & rs & lo & hi & _ & _ & _ & Hlo & Hhi & Hfig').
  rewrite Hfig' in Hfig. injection Hfig as <-.
  cbn [static_ylim static_curve fst] in Hr |- *.
  split; [reflexivity|].
  apply normalize_loop_radii in Hr as [Hr|(p & Hp & ->)]; [inversion Hr|].
  apply elem_of_zip_r in Hp.
  pose proof (py_min_le _ _ _ Hlo Hp). pose proof (py_max_ge _ _ _ Hhi Hp).
  pose proof (Rabs_pos p.2).
  split; [assumption|]. cbn [snd].
  assert (Rabs p.2 <= Rmax (if Rlt_dec lo 0 then Rabs lo else 0) hi).
  { destruct (Rle_dec 0 p.2) as [Hpos|Hneg].
    - rewrite Rabs_right by lra.
      pose proof (Rmax_r (if Rlt_dec lo 0 then Rabs lo else 0) hi). lra.
    - destruct (Rlt_dec lo 0) as [_|Hlo']; [|lra].
      rewrite (Rabs_left p.2) by lra. rewrite (Rabs_left lo) by lra.
      pose proof (Rmax_l (- lo) hi). lra. }
  lra.
Qed.

Lemma create_artists_inv f a :
  create_artists f = Ok a ->
  exists thetas rs lo hi,
    thetas = linspace 0 (2 * PI) 1000 /\
    mapM f thetas = Ok rs /\
    py_min rs = Ok lo /\ py_max rs = Ok hi /\
    ylim a = (0, 1.1 * Rmax (Rabs lo) (Rabs hi)) /\
    full_curve a = (thetas, Rabs <$> rs) /\
    ray a = ([0; 0], [0; 1.1 * Rmax (Rabs lo) (Rabs hi)]) /\
    opposite_ray a = ([0; 0], [0; 1.1 * Rmax (Rabs lo) (Rabs hi)]) /\
    rays_collection a = [] /\
    drawn_curve a = ([], []).
Proof.
  unfold create_artists. remember (linspace 0 (2 * PI) 1000) as thetas eqn:Hth.
  destruct (mapM f thetas) as [rs|] eqn:Hrs; [|discriminate]. cbn [mbind result_bind].
  destruct (py_min rs) as [lo|] eqn:Hlo; [|discriminate]. cbn [mbind result_bind].
  destruct (py_max rs) as [hi|] eqn:Hhi; [|discriminate]. cbn [mbind result_bind].
  destruct (f 0) as [r0|]; [|discriminate].
  cbn [mbind result_bind mret result_ret snd].
  intros [= <-]. exists thetas, rs, lo, hi.
  cbn [ylim full_curve ray opposite_ray rays_collection drawn_curve].
  repeat split; assumption || reflexivity.
Qed.

(** Whenever [polar_animator] has built its axes, the radial axis starts
    at 0 and reaches at least as far as every radius of the reference
    curve, and the two rays end on the limit. *)
Theorem reference_curve_within_limits (f : pyfun) (a : Artists) (r : R) :
  create_artists f = Ok a ->
  r ∈ (full_curve a).2 ->
  (ylim a).1 = 0 /\ 0 <= r <= (ylim a).2 /\
  ray a = ([0; 0], [0; (ylim a).2]) /\
  opposite_ray a = ([0; 0], [0; (ylim a).2]).
Proof.
  intros Ha Hr.
  destruct (create_artists_inv _ _ Ha)
    as (thetas & rs & lo & hi & _ & _ & Hlo & Hhi & Hylim & Hfull & Hray & Hopp & _).
  rewrite Hylim, Hray, Hopp. rewrite Hfull in Hr. cbn [fst snd] in Hr |- *.
  split; [reflexivity|]. split; [|split; reflexivity].
  apply list_elem_of_fmap in Hr as (x & -> & Hx).
  pose proof (py_min_le _ _ _ Hlo Hx). pose proof (py_max_ge _ _ _ Hhi Hx).
  pose proof (Rabs_pos x). split; [assumption|].
  assert (Rabs x <= Rmax (Rabs lo) (Rabs hi)).
  { pose proof (Rmax_l (Rabs lo) (Rabs hi)). pose proof (Rmax_r (Rabs lo) (Rabs hi)).
    destruct (Rle_dec 0 x).
    - rewrite (Rabs_right x) by lra. pose proof (Rle_abs hi). lra.
    - rewrite (Rabs_left x) by lra.
      assert (lo < 0) by lra. rewrite (Rabs_left lo) in * by lra. lra. }
  lra.
Qed.

Lemma reference_curve_within_limits_witness :
  exists a r,
    create_artists (pure_fn rose) = Ok a /\
    r ∈ (full_curve a).2 /\
    0 <= r <= (ylim a).2.
Proof.
  destruct (create_artists_ok (pure_fn rose)) as (a & Ha & _).
  { intros x. exists (rose x). reflexivity. }
  destruct (create_artists_inv _ _ Ha)
    as (thetas & rs & lo & hi & Hth & Hrs & _ & _ & _ & Hfull & _).
  destruct (mapM_result_lookup _ _ _ Hrs) as [Hlen _].
  rewrite Hth, linspace_length in Hlen.
  destruct rs as [|r0 rs]; [discriminate|].
  assert (Hin : Rabs r0 ∈ (full_curve a).2).
  { rewrite Hfull. cbn [snd]. rewrite fmap_cons. left. }
  exists a, (Rabs r0). split; [exact Ha|]. split; [exact Hin|].
  destruct (reference_curve_within_limits _ _ _ Ha Hin) as (_ & H & _). exact H.
Defined.

Lemma static_plot_within_limits_witness :
  exists self' plot r,
    update_static_plot rose_app = Ok self' /\
    fig self' = Some plot /\
    r ∈ (static_curve plot).2 /\
    0 <= r <= (static_ylim plot).2.
Proof.
  destruct (update_static_plot_ok rose_app rose_app_well_formed)
    as (rs & lo & hi & Hrs & _ & _ & Hplot).
  destruct (mapM_result_lookup _ _ _ Hrs) as [Hlen _].
  rewrite linspace_length in Hlen.
  pose proof (normalize_loop_length (zip (linspace 0 (2 * PI) 1000) rs) [] []) as [_ Hl].
  rewrite length_zip_with, linspace_length, Hlen in Hl. cbn [length Nat.add Nat.min] in Hl.
  destruct ((normalize_loop (zip (linspace 0 (2 * PI) 1000) rs) [] []).2)
    as [|r curve_rs] eqn:Hcurve; [discriminate|].
  eexists. eexists. exists r. split; [exact Hplot|]. split; [reflexivity|].
  assert (Hin : r ∈ (normalize_loop (zip (linspace 0 (2 * PI) 1000) rs) [] []).2).
  { rewrite Hcurve. left. }
  split; [exact Hin|].
  destruct (static_plot_within_limits _ _ _ r Hplot eq_refl Hin) as [_ H]. exact H.
Defined.

(** ** When the static plot can be drawn *)

Lemma assoc_raise {A} (d : list (string * A)) key :
  key ∉ d.*1 -> assoc d key = Raise (KeyError key).
Proof.
  induction d as [|[k v] d IH]; intros Hkey; cbn [assoc]; [reflexivity|].
  rewrite fmap_cons, not_elem_of_cons in Hkey. destruct Hkey as [Hne Hkey].
  rewrite decide_False by (cbn in Hne; congruence). auto.
Qed.

Lemma assoc_registered {A} (d : list (string * A)) key :
  key ∈ d.*1 -> exists v, assoc d key = Ok v.
Proof.
  induction d as [|[k v] d IH]; intros Hkey; [inversion Hkey|].
  cbn [assoc]. case_decide; [eauto|].
  rewrite fmap_cons in Hkey. apply elem_of_cons in Hkey as [Hkey|Hkey]; [|auto].
  cbn in Hkey. congruence.
Qed.

Lemma assoc_ok {A} (d : list (string * A)) key v :
  assoc d key = Ok v -> (key, v) ∈ d.
Proof.
  induction d as [|[k v'] d IH]; cbn [assoc]; [discriminate|].
  case_decide as Hk.
  - intros [= ->]. subst. left.
  - intros H. right. auto.
Qed.

Lemma mapM_raise_first (f : pyfun) (l : list R) x e :
  l !! 0%nat = Some x -> f x = Raise e -> mapM f l = Raise e.
Proof.
  destruct l as [|y l]; [discriminate|]. cbn. intros [= ->] Hx.
  rewrite Hx. reflexivity.
Qed.

(** The first coefficient a registered equation reads and does not find
    is the key of the error, at every angle. *)
Lemma current_function_missing name data coef_values :
  assoc equations name = Ok data ->
  ~ Forall (fun c => is_Some (coef_values !! c)) (coefficients data).*1 ->
  exists c,
    c ∈ (coefficients data).*1 /\ coef_values !! c = None /\
    forall theta, current_function name coef_values theta = Raise (KeyError c).
Proof.
  intros Hdata Hmiss. unfold current_function, getitem.
  destruct (assoc_equations_inv _ _ Hdata)
    as [[-> Hc]|[[-> Hc]|[[-> Hc]|[[-> Hc]|[-> Hc]]]]];
    rewrite Hc in *; repeat case_decide; try discriminate; try congruence.
  all: destruct (coef_values !! "a") as [a|] eqn:Ha;
    [|exists "a"; split; [set_solver|split; [assumption|reflexivity]]].
  all: try (exfalso; apply Hmiss; repeat constructor; rewrite Ha; eauto).
  - destruct (coef_values !! "n") as [n|] eqn:Hn.
    + exfalso. apply Hmiss. repeat constructor; [rewrite Ha|rewrite Hn]; eauto.
    + exists "n". split; [set_solver|]. split; [assumption|reflexivity].
  - destruct (coef_values !! "b") as [b|] eqn:Hb.
    + exfalso. apply Hmiss. repeat constructor; [rewrite Ha|rewrite Hb]; eauto.
    + exists "b". split; [set_solver|]. split; [assumption|reflexivity].
Qed.

(** [update_static_plot] returns exactly on the well-formed applications.
    On an equation name that is not registered it raises [KeyError] for
    the name (line 402), so the final [return 0] of the evaluation
    function is never reached from it; on a registered equation with a
    coefficient that has no slider it raises [KeyError] for a missing
    coefficient. *)
Theorem static_plot_returns_iff_well_formed (self : App) :
  (well_formed self <-> exists self', update_static_plot self = Ok self') /\
  (equation_var self ∉ equations.*1 ->
   update_static_plot self = Raise (KeyError (equation_var self))) /\
  (equation_var self ∈ equations.*1 ->
   ~ well_formed self ->
   exists c, sliders self !! c = None /\
             update_static_plot self = Raise (KeyError c)).
Proof.
  assert (Hmissing : forall data,
    assoc equations (equation_var self) = Ok data ->
    ~ well_formed self ->
    exists c, sliders self !! c = None /\
              update_static_plot self = Raise (KeyError c)).
  { intros data Hdata Hnwf.
    destruct (current_function_missing _ data (sliders self) Hdata)
      as (c & _ & Hnone & Hraise).
    { intros Hall. apply Hnwf. unfold well_formed. rewrite Hdata.
      rewrite Forall_fmap in Hall. exact Hall. }
    exists c. split; [assumption|].
    unfold update_static_plot. rewrite Hdata. cbn [mbind result_bind].
    rewrite (mapM_raise_first _ _ 0 (KeyError c)); [reflexivity| |apply Hraise].
    apply linspace_first. lia. }
  split; [split|split].
  - intros Hwf. destruct (update_static_plot_ok self Hwf) as (? & ? & ? & _ & _ & _ & H).
    eauto.
  - intros [self' Hok].
    destruct (update_static_plot_inv_full _ _ Hok)
      as (data & _ & _ & _ & _ & _ & Hdata & _).
    destruct (decide (Forall (fun c : string * coef_spec => is_Some (sliders self !! c.1))
                             (coefficients data))) as [Hwf|Hnwf].
    + unfold well_formed. rewrite Hdata. exact Hwf.
    + destruct (Hmissing data Hdata) as (c & _ & Hraise); [|congruence].
      unfold well_formed. rewrite Hdata. exact Hnwf.
  - intros Hname. unfold update_static_plot.
    rewrite (assoc_raise equations _ Hname). reflexivity.
  - intros Hname Hnwf.
    destruct (assoc equations (equation_var self)) as [data|e] eqn:Hdata.
    + eauto.
    + destruct (assoc_registered equations _ Hname) as [data Hdata']. congruence.
Qed.

Lemma static_plot_returns_iff_well_formed_witness :
  update_static_plot (example_app "Ellipse" ∅) = Raise (KeyError "Ellipse") /\
  exists c, update_static_plot (example_app "Rose" {[ "a" := 3 ]}) = Raise (KeyError c).
Proof.
  split.
  - destruct (static_plot_returns_iff_well_formed (example_app "Ellipse" ∅)) as (_ & H & _).
    apply H. cbn. rewrite list_elem_of_In. cbn. intuition discriminate.
  - destruct (static_plot_returns_iff_well_formed (example_app "Rose" {[ "a" := 3 ]}))
      as (_ & _ & H).
    destruct H as (c & _ & Hc).
    + cbn. rewrite list_elem_of_In. cbn. tauto.
    + unfold well_formed, example_app, equations. cbn.
      intros Hall. inversion Hall as [|? ? _ Hall']. inversion Hall' as [|? ? [v Hv] _].
      cbn in Hv. rewrite lookup_singleton_ne in Hv by discriminate. discriminate.
    + eauto.
Defined.

(** ** Selecting an equation *)

Lemma registered_names name :
  name ∈ equations.*1 ->
  name = "Circle" \/ name = "Cardioid" \/ name = "Rose" \/ name = "Spiral" \/
  name = "Limacon".
Proof. rewrite list_elem_of_In. cbn. intuition. Qed.

(** Sliders as [on_equation_selected] creates them: one per coefficient,
    in the order of the declaration. *)
Lemma default_sliders_eq (data : equation_data) :
  NoDup (coefficients data).*1 ->
  foldl (fun d '(coef_name, coef_data) => <[coef_name := coef_default coef_data]> d)
        (∅ : gmap string R) (coefficients data) =
  coef_default <$> (list_to_map (coefficients data) : gmap string coef_spec).
Proof.
  generalize (coefficients data). intros l.
  assert (H : forall (m : gmap string coef_spec),
            (forall k, k ∈ l.*1 -> m !! k = None) -> NoDup l.*1 ->
            foldl (fun d '(coef_name, coef_data) =>
                     <[coef_name := coef_default coef_data]> d)
                  (coef_default <$> m) l =
            coef_default <$> (list_to_map l ∪ m)).
  { induction l as [|[k v] l IH]; intros m Hm Hnd; cbn [foldl].
    - cbn. rewrite (left_id_L ∅ (∪)). reflexivity.
    - rewrite fmap_cons in Hnd. apply NoDup_cons in Hnd as [Hk Hnd].
      rewrite <- fmap_insert. rewrite IH.
      + f_equal. cbn [list_to_map foldr]. cbn.
        rewrite <- insert_union_l, <- insert_union_r; [reflexivity|].
        apply not_elem_of_list_to_map_1. exact Hk.
      + intros k' Hk'. rewrite lookup_insert_ne; [apply Hm; right; exact Hk'|].
        cbn in Hk. intros ->. contradiction.
      + exact Hnd. }
  intros Hnd. specialize (H ∅). rewrite fmap_empty in H.
  rewrite H; [|intros; apply lookup_empty|exact Hnd].
  rewrite (right_id_L ∅ (∪)). reflexivity.
Qed.

Lemma equations_NoDup name data :
  assoc equations name = Ok data -> NoDup (coefficients data).*1.
Proof.
  intros H. destruct (assoc_equations_inv _ _ H)
    as [[_ ->]|[[_ ->]|[[_ ->]|[[_ ->]|[_ ->]]]]];
    repeat (apply NoDup_cons; split; [rewrite list_elem_of_In; cbn; intuition discriminate|]);
    apply NoDup_nil; exact I.
Qed.

Lemma elem_of_list_to_map_fst (l : list (string * coef_spec)) k :
  is_Some ((list_to_map l : gmap string coef_spec) !! k) <-> k ∈ l.*1.
Proof.
  split.
  - intros [v Hv]. apply elem_of_list_to_map_2 in Hv.
    apply list_elem_of_fmap. exists (k, v). auto.
  - intros Hk. destruct ((list_to_map l : gmap string coef_spec) !! k) eqn:E; [eauto|].
    apply not_elem_of_list_to_map in E. contradiction.
Qed.

(** Choosing a registered equation returns, with one slider per declared
    coefficient at its default. *)
Lemma combobox_selected_registered (self : App) (name : string) :
  name ∈ equations.*1 ->
  exists self' data,
    combobox_selected self name = Ok self' /\
    assoc equations name = Ok data /\
    equation_var self' = name /\
    sliders self' = coef_default <$> (list_to_map (coefficients data) : gmap string coef_spec) /\
    sliders_match self' /\
    animation self' = animation self /\
    is_paused self' = is_paused self /\
    controls self' = controls self /\
    speed_var self' = speed_var self.
Proof.
  intros Hname. destruct (assoc_registered equations name Hname) as [data Hdata].
  pose proof (default_sliders_eq data (equations_NoDup _ _ Hdata)) as Hdef.
  unfold combobox_selected, on_equation_selected. cbn [equation_var].
  rewrite Hdata. cbn [mbind result_bind].
  cbn [animation current_frame is_paused sliders speed_var controls fig
       plot_frame_packed root_geometry original_geometry].
  rewrite Hdef.
  match goal with |- context [update_static_plot ?s] => set (s0 := s) end.
  assert (Hmatch : sliders_match s0).
  { exists data. split; [exact Hdata|]. intros c. cbn [s0 sliders].
    rewrite lookup_fmap, <- elem_of_list_to_map_fst.
    unfold is_Some. split; intros [v Hv].
    - destruct (list_to_map (coefficients data) !! c); [eauto|discriminate].
    - rewrite Hv. eauto. }
  assert (Hwf : well_formed s0).
  { unfold well_formed. cbn [s0 equation_var]. rewrite Hdata.
    apply Forall_forall. intros c Hc. destruct Hmatch as (d & Hd & Hkeys).
    cbn [s0 equation_var] in Hd. rewrite Hdata in Hd. injection Hd as <-.
    apply Hkeys. apply list_elem_of_fmap. eauto. }
  destruct (update_static_plot_ok s0 Hwf) as (rs & lo & hi & _ & _ & _ & Hplot).
  eexists. exists data. split; [exact Hplot|].
  split; [reflexivity|]. split; [reflexivity|]. split; [reflexivity|].
  split; [exact Hmatch|]. split; [reflexivity|]. split; [reflexivity|].
  split; reflexivity.
Qed.

(** Choosing a registered equation returns, whatever the sliders were:
    the sliders are then exactly the coefficients the registry declares
    for it, each at its default, and nothing of the animation state is
    touched.  Choosing a name that is not registered raises [KeyError] for
    the name. *)
Theorem select_equation_resets_sliders (self : App) (name : string) :
  (name ∈ equations.*1 ->
   exists self' data,
     combobox_selected self name = Ok self' /\
     assoc equations name = Ok data /\
     equation_var self' = name /\
     sliders self' = coef_default <$> (list_to_map (coefficients data) : gmap string coef_spec) /\
     sliders_match self' /\
     animation self' = animation self /\
     is_paused self' = is_paused self /\
     controls self' = controls self /\
     speed_var self' = speed_var self) /\
  (name ∉ equations.*1 ->
   combobox_selected self name = Raise (KeyError name)).
Proof.
  split.
  - apply combobox_selected_registered.
  - intros Hname. unfold combobox_selected, on_equation_selected. cbn [equation_var].
    rewrite (assoc_raise equations _ Hname). reflexivity.
Qed.

(** Two different string literals. *)
Ltac string_ne := let E := fresh in intros E; discriminate E.

Lemma select_equation_resets_sliders_witness :
  exists self',
    combobox_selected circle_app "Rose" = Ok self' /\
    equation_var self' = "Rose" /\
    sliders self' !! "a" = Some 3 /\ sliders self' !! "n" = Some 3 /\
    sliders self' !! "b" = None.
Proof.
  destruct (select_equation_resets_sliders circle_app "Rose") as [H _].
  destruct H as (self' & data & Hsel & Hdata & Hname & Hsl & _).
  { rewrite list_elem_of_In. cbn. tauto. }
  exists self'. split; [exact Hsel|]. split; [exact Hname|].
  unfold equations in Hdata. cbn [assoc] in Hdata.
  rewrite decide_False in Hdata by string_ne.
  rewrite decide_False in Hdata by string_ne.
  rewrite decide_True in Hdata by reflexivity.
  injection Hdata as <-. rewrite Hsl. cbn [coefficients].
  rewrite !lookup_fmap, !list_to_map_cons, list_to_map_nil.
  rewrite lookup_insert_eq.
  rewrite lookup_insert_ne by string_ne. rewrite lookup_insert_eq.
  rewrite lookup_insert_ne by string_ne.
  rewrite lookup_insert_ne by string_ne.
  rewrite lookup_empty. repeat split; reflexivity.
Defined.

(** ** The registry and the evaluation function agree *)

Ltac registry_case Hdata Hsl :=
  unfold equations in Hdata; cbn [assoc] in Hdata;
  repeat (rewrite decide_False in Hdata by string_ne);
  rewrite decide_True in Hdata by reflexivity;
  injection Hdata as <-; rewrite Hsl; cbn [coefficients function];
  unfold current_function, getitem;
  repeat (rewrite decide_False by string_ne);
  rewrite decide_True by reflexivity;
  rewrite !lookup_fmap, !list_to_map_cons;
  repeat first [rewrite lookup_insert_eq | rewrite lookup_insert_ne by string_ne];
  reflexivity.

(** For each of the five registered equations, the evaluation function
    the application builds right after the equation is selected (sliders
    at their defaults) computes the example function the registry stores
    for it: the [function] entries and the closures agree. *)
Theorem registry_function_agrees (self : App) (name : string) :
  name ∈ equations.*1 ->
  exists self' data,
    combobox_selected self name = Ok self' /\
    assoc equations name = Ok data /\
    forall theta,
      current_function (equation_var self') (sliders self') theta =
        Ok (function data theta).
Proof.
  intros Hname.
  destruct (combobox_selected_registered self name Hname)
    as (self' & data & Hsel & Hdata & Hvar & Hsl & _).
  exists self', data. split; [exact Hsel|]. split; [exact Hdata|].
  intros theta. rewrite Hvar.
  destruct (registered_names name Hname) as [->|[->|[->|[->| ->]]]];
    registry_case Hdata Hsl.
Qed.

Lemma registry_function_agrees_witness :
  exists self',
    combobox_selected circle_app "Limacon" = Ok self' /\
    forall theta,
      current_function (equation_var self') (sliders self') theta = Ok (limacon theta).
Proof.
  destruct (registry_function_agrees circle_app "Limacon")
    as (self' & data & Hsel & Hdata & Hfun).
  { rewrite list_elem_of_In. cbn. tauto. }
  exists self'. split; [exact Hsel|].
  unfold equations in Hdata. cbn [assoc] in Hdata.
  repeat (rewrite decide_False in Hdata by string_ne).
  rewrite decide_True in Hdata by reflexivity.
  injection Hdata as <-. exact Hfun.
Defined.

(** ** One frame *)

(** The traced curve of every frame has 100 points; it starts at the
    normalised point of angle 0 and its last point is the filled marker:
    the marker sits on the end of the curve it traces. *)
Theorem traced_curve_ends_at_marker (f : R -> R) (frames i : nat) (a : Artists) :
  exists a' theta r,
    animate (pure_fn f) frames i a = Ok a' /\
    length (drawn_curve a').1 = 100%nat /\
    length (drawn_curve a').2 = 100%nat /\
    point a' = ([theta], [r]) /\
    curve_point (drawn_curve a') 99 = Some (theta, r) /\
    curve_point (drawn_curve a') 0 =
      Some (if Rge_dec (f 0) 0 then (0, f 0) else (0 + PI, Rabs (f 0))).
Proof.
  destruct (animate_pure_fn f frames i a)
    as (a' & Ha & _ & _ & _ & _ & _ & _ & Hpt & Hcurve).
  set (theta := frame_theta frames i) in *.
  pose proof (normalize_loop_length
                (zip (linspace 0 theta 100) (f <$> linspace 0 theta 100)) [] [])
    as [Hl1 Hl2].
  rewrite length_zip_with, length_fmap, linspace_length in Hl1, Hl2.
  assert (Hlast : linspace 0 theta 100 !! 99%nat = Some theta)
    by (apply (linspace_last 0 theta 100); lia).
  assert (Hfirst : linspace 0 theta 100 !! 0%nat = Some 0)
    by (apply linspace_first; lia).
  pose proof (normalize_loop_lookup _ [] [] 99 theta (f theta) eq_refl
                (zip_fmap_lookup f _ _ _ Hlast)) as H99.
  pose proof (normalize_loop_lookup _ [] [] 0 0 (f 0) eq_refl
                (zip_fmap_lookup f _ _ _ Hfirst)) as H0.
  cbn [length Nat.add] in H99, H0.
  destruct (Rge_dec (f theta) 0) as [Hge|Hlt]; injection Hpt as Hp _;
    eexists a', _, _; (split; [exact Ha|]); rewrite Hcurve;
    (split; [exact Hl1|]); (split; [exact Hl2|]);
    (split; [exact Hp|]); (split; [exact H99|exact H0]).
Qed.

Lemma Artists_eq (a b : Artists) :
  ylim a = ylim b -> full_curve a = full_curve b -> line_trace a = line_trace b ->
  point a = point b -> opposite_point a = opposite_point b -> ray a = ray b ->
  opposite_ray a = opposite_ray b -> rays_collection a = rays_collection b ->
  drawn_curve a = drawn_curve b -> a = b.
Proof. destruct a, b. cbn. intros. subst. reflexivity. Qed.

(** The trace line [polar_animator] and [init] draw is the segment from
    the origin to the point of angle 0; [animate] never touches it. *)
Lemma create_artists_line_trace f a :
  create_artists (pure_fn f) = Ok a -> line_trace a = ([0; 0], [0; f 0]).
Proof.
  assert (Htrace : linspace 0 0 2 = [0; 0]).
  { unfold linspace. cbn [seq fmap list_fmap Nat.sub INR].
    repeat f_equal; field. }
  unfold create_artists. rewrite Htrace.
  remember (linspace 0 (2 * PI) 1000) as thetas eqn:Hth.
  destruct (mapM (pure_fn f) thetas) as [rs|]; [|discriminate].
  cbn [mbind result_bind].
  destruct (py_min rs) as [lo|]; [|discriminate]. cbn [mbind result_bind].
  destruct (py_max rs) as [hi|]; [|discriminate].
  cbn [mbind result_bind mret result_ret pure_fn].
  intros [= <-]. reflexivity.
Qed.

(** Restarting is invisible: on axes whose trace line is the one
    [polar_animator] drew, [init] followed by the frame [i] leaves exactly
    the artists the frame [i] leaves without it.  [init] is idempotent,
    and [polar_animator], [init] and [animate] all keep that trace line. *)
Theorem restart_is_invisible (f : R -> R) (frames i : nat) (a : Artists) :
  line_trace a = ([0; 0], [0; f 0]) ->
  exists a0 a1,
    init (pure_fn f) a = Ok a0 /\
    init (pure_fn f) a0 = Ok a0 /\
    animate (pure_fn f) frames i a0 = Ok a1 /\
    animate (pure_fn f) frames i a = Ok a1 /\
    line_trace a0 = ([0; 0], [0; f 0]) /\
    line_trace a1 = ([0; 0], [0; f 0]).
Proof.
  intros Hline.
  eexists. rewrite init_pure_fn.
  destruct (animate_pure_fn f frames i a)
    as (a1 & Ha1 & Hy & Hf & Hl & Hray & Hopp & Hrays & Hpt & Hcurve).
  exists a1. split; [reflexivity|]. split; [reflexivity|].
  split; [|split; [exact Ha1|split; [reflexivity|congruence]]].
  match goal with |- animate _ _ _ ?x = _ =>
    destruct (animate_pure_fn f frames i x)
      as (a1' & Ha1' & Hy' & Hf' & Hl' & Hray' & Hopp' & Hrays' & Hpt' & Hcurve')
  end.
  rewrite Ha1'. f_equal.
  cbn [ylim full_curve line_trace rays_collection] in *.
  rewrite <- Hpt in Hpt'. injection Hpt' as Hp Ho.
  apply Artists_eq.
  - rewrite Hy', Hy. reflexivity.
  - rewrite Hf', Hf. reflexivity.
  - rewrite Hl', Hl, Hline. reflexivity.
  - exact Hp.
  - exact Ho.
  - rewrite Hray', Hray. reflexivity.
  - rewrite Hopp', Hopp. reflexivity.
  - rewrite Hrays', Hrays. reflexivity.
  - rewrite Hcurve', Hcurve. reflexivity.
Qed.

Lemma restart_is_invisible_witness :
  exists a a0 a1,
    create_artists (pure_fn rose) = Ok a /\
    init (pure_fn rose) a = Ok a0 /\
    animate (pure_fn rose) 200 0 a0 = Ok a1 /\
    animate (pure_fn rose) 200 0 a = Ok a1.
Proof.
  destruct (create_artists_ok (pure_fn rose)) as (a & Ha & _).
  { intros x. exists (rose x). reflexivity. }
  destruct (restart_is_invisible rose 200 0 a (create_artists_line_trace _ _ Ha))
    as (a0 & a1 & H0 & _ & H1 & H2 & _).
  exists a, a0, a1. auto.
Defined.

(** ** Any number of ticks *)

Lemma multiples_of_ten_below k :
  length (filter (fun j => j `mod` 10 = 0)%nat (seq 0 k)) = ((k + 9) `div` 10)%nat.
Proof.
  destruct k as [|i]; [reflexivity|].
  rewrite multiples_of_ten_upto.
  replace (S i + 9)%nat with (i + 1 * 10)%nat by lia.
  rewrite Nat.div_add by lia. reflexivity.
Qed.

Lemma ticks_rays_prefix n : forall ani ani',
  ticks n ani = Ok ani' ->
  rays_collection (axes ani) `prefix_of` rays_collection (axes ani').
Proof.
  induction n as [|n IH]; intros ani ani'; cbn [ticks].
  - intros [= <-]. reflexivity.
  - destruct (tick ani) as [ani1|] eqn:Ht; [|discriminate].
    cbn [mbind result_bind]. intros Hn.
    etrans; [exact (tick_rays_prefix _ _ Ht)|exact (IH _ _ Hn)].
Qed.

(** Where a running animation stands after [n] ticks from index 0, for
    every frame count: the position is [n mod (frames + 1)] (the frames of
    a cycle and the tick that restarts it), the limits are untouched, and
    the ray trail has grown by one ray per multiple of ten among the frames
    drawn.  With [frames = 0] no frame is ever drawn: the angle, which
    would divide by zero, is never computed, and the trail stays as it
    is. *)
Theorem ticks_closed_form (f : R -> R) (frames : nat) (interval : Z) (n : nat)
    (a : Artists) :
  (exists a',
     ticks n (running_animation f frames interval 0 a) =
       Ok (running_animation f frames interval (n `mod` S frames) a') /\
     ylim a' = ylim a /\
     length (rays_collection a') =
       (length (rays_collection a) +
        n `div` S frames * ((frames + 9) `div` 10) +
        (n `mod` S frames + 9) `div` 10)%nat) /\
  (frames = 0%nat ->
   exists a',
     ticks n (running_animation f frames interval 0 a) =
       Ok (running_animation f frames interval 0 a') /\
     rays_collection a' = rays_collection a).
Proof.
  assert (Hmain : exists a',
     ticks n (running_animation f frames interval 0 a) =
       Ok (running_animation f frames interval (n `mod` S frames) a') /\
     ylim a' = ylim a /\
     length (rays_collection a') =
       (length (rays_collection a) +
        n `div` S frames * ((frames + 9) `div` 10) +
        (n `mod` S frames + 9) `div` 10)%nat).
  { pose proof (Nat.div_mod_eq n (S frames)) as Hn.
    pose proof (Nat.mod_upper_bound n (S frames)) as Hr.
    set (q := (n `div` S frames)%nat) in *. set (r := (n `mod` S frames)%nat) in *.
    destruct (ticks_cycles f frames interval q a) as (a1 & Hc & Hy1 & Hl1).
    destruct (ticks_frames f frames interval r 0 a1) as (a' & Ht & Hy & Hrays); [lia|].
    exists a'. split; [|split].
    - rewrite Hn at 1. replace (S frames * q + r)%nat with (q * S frames + r)%nat by lia.
      rewrite ticks_add, Hc. cbn [mbind result_bind]. exact Ht.
    - congruence.
    - rewrite Hrays, length_app, length_fmap, Hl1, !multiples_of_ten_below. lia. }
  split; [exact Hmain|].
  intros ->. destruct Hmain as (a' & Ht & _ & Hlen).
  exists a'. rewrite Nat.mod_1_r in Ht, Hlen. split; [exact Ht|].
  symmetry. apply prefix_length_eq.
  - apply (ticks_rays_prefix _ _ _ Ht).
  - rewrite Hlen. cbn. lia.
Qed.

(** ** The methods on a well-formed application *)

(** The static plot depends on the selected equation and the sliders
    only: one plot serves every application that agrees on them. *)
Lemma static_plot_for self :
  well_formed self ->
  exists plot,
    forall s : App,
      equation_var s = equation_var self ->
      sliders s = sliders self ->
      update_static_plot s =
        Ok {| animation := animation s;
              current_frame := current_frame s;
              is_paused := is_paused s;
              equation_var := equation_var s;
              sliders := sliders s;
              speed_var := speed_var s;
              controls := controls s;
              fig := Some plot;
              plot_frame_packed := plot_frame_packed s;
              root_geometry := root_geometry s;
              original_geometry := original_geometry s |}.
Proof.
  intros Hwf.
  destruct (update_static_plot_ok self Hwf) as (rs & lo & hi & Hrs & Hlo & Hhi & _).
  pose proof Hwf as Hwf'. unfold well_formed in Hwf'.
  destruct (assoc equations (equation_var self)) as [data|] eqn:Hdata; [|contradiction].
  eexists. intros s Heq Hsl.
  assert (Hdata' : assoc equations (equation_var s) = Ok data) by congruence.
  assert (Hrs' : mapM (current_function (equation_var s) (sliders s))
                   (linspace 0 (2 * PI) 1000) = Ok rs) by congruence.
  unfold update_static_plot.
  rewrite Hdata'. cbn [mbind result_bind]. rewrite Hrs'.
  cbn [mbind result_bind]. rewrite Hlo, Hhi. reflexivity.
Qed.

Lemma stop_animation_eq (s : App) (plot : StaticPlot) :
  (forall s' : App,
     equation_var s' = equation_var s -> sliders s' = sliders s ->
     update_static_plot s' =
       Ok {| animation := animation s';
             current_frame := current_frame s';
             is_paused := is_paused s';
             equation_var := equation_var s';
             sliders := sliders s';
             speed_var := speed_var s';
             controls := controls s';
             fig := Some plot;
             plot_frame_packed := plot_frame_packed s';
             root_geometry := root_geometry s';
             original_geometry := original_geometry s' |}) ->
  stop_animation s = Ok (after_stop s plot).
Proof.
  intros Hplot. unfold stop_animation, after_stop.
  destruct (active_animation s) as [[ani running]|];
    [destruct (current_frame s) as [w|]|];
    cbn [try_except timer_stop plt_close];
    rewrite Hplot by reflexivity; reflexivity.
Qed.

Lemma handle_animation_close_eq (s : App) (plot : StaticPlot) :
  (forall s' : App,
     equation_var s' = equation_var s -> sliders s' = sliders s ->
     update_static_plot s' =
       Ok {| animation := animation s';
             current_frame := current_frame s';
             is_paused := is_paused s';
             equation_var := equation_var s';
             sliders := sliders s';
             speed_var := speed_var s';
             controls := controls s';
             fig := Some plot;
             plot_frame_packed := plot_frame_packed s';
             root_geometry := root_geometry s';
             original_geometry := original_geometry s' |}) ->
  handle_animation_close s =
    Ok (match active_animation s with
        | Some _ =>
            {| animation := None;
               current_frame := current_frame s;
               is_paused := false;
               equation_var := equation_var s;
               sliders := sliders s;
               speed_var := speed_var s;
               controls := enable_controls (controls s);
               fig := Some plot;
               plot_frame_packed := true;
               root_geometry :=
                 if decide (original_geometry s = "")
                 then root_geometry s
                 else original_geometry s;
               original_geometry := original_geometry s |}
        | None => s
        end).
Proof.
  intros Hplot. unfold handle_animation_close.
  destruct (active_animation s) as [[ani running]|]; [|reflexivity].
  cbn [try_except timer_stop]. rewrite Hplot by reflexivity. reflexivity.
Qed.

(** [start_animation] on a well-formed application: the animation it
    creates is a running animation of a total function, at index 0, with
    an empty ray trail and the trace line of angle 0. *)
Lemma start_animation_eq self :
  well_formed self ->
  exists f a,
    rays_collection a = [] /\
    line_trace a = ([0; 0], [0; f 0]) /\
    (forall theta,
       current_function (equation_var self) (sliders self) theta = Ok (f theta)) /\
    forall s : App,
      equation_var s = equation_var self ->
      sliders s = sliders self ->
      start_animation s =
        Ok (after_start s (running_animation f 200 (100 - speed_var s) 0 a)).
Proof.
  intros Hwf. destruct (current_function_pure self Hwf) as [f Hf].
  pose proof Hwf as Hwf'. unfold well_formed in Hwf'.
  destruct (assoc equations (equation_var self)) as [data|] eqn:Hdata; [|contradiction].
  destruct (create_artists_ok (pure_fn f)) as (a & Ha & Hrays).
  { intros x. exists (f x). reflexivity. }
  exists f. eexists. split; [|split; [|split]]; cycle 3.
  - intros s Heq Hsl.
    assert (Hdata' : assoc equations (equation_var s) = Ok data) by congruence.
    assert (Hf' : current_function (equation_var s) (sliders s) = pure_fn f)
      by congruence.
    unfold start_animation, polar_animator, first_draw. rewrite Hdata'.
    cbn [mbind result_bind]. rewrite Hf', Ha.
    cbn [mbind result_bind mret result_ret anim_function axes].
    rewrite init_pure_fn. cbn [mbind result_bind mret result_ret].
    reflexivity.
  - cbn [rays_collection]. exact Hrays.
  - reflexivity.
  - intros theta. rewrite Hf. reflexivity.
Qed.

(** ** The animation state machine *)

Lemma active_after_stop s plot : active_animation (after_stop s plot) = None.
Proof.
  unfold after_stop, active_animation at 1. cbn [animation].
  destruct (active_animation s) as [p|] eqn:Hact; [reflexivity|].
  unfold active_animation in Hact. exact Hact.
Qed.

Lemma after_stop_idem s plot : after_stop (after_stop s plot) plot = after_stop s plot.
Proof.
  unfold after_stop at 1. rewrite active_after_stop.
  unfold after_stop.
  cbn [animation current_frame equation_var sliders speed_var controls
       root_geometry original_geometry enable_controls pause_button_text].
  f_equal. destruct (decide (original_geometry s = "")); reflexivity.
Qed.

(** Stop from any state.  On a well-formed application [stop_animation]
    returns and leaves the machine Stopped with the controls enabled and
    the plot frame shown, the equation and sliders as they were; if an
    animation was active it is dropped and its window closed; and a second
    stop changes nothing, whatever the state the first one started in. *)
Theorem stop_reaches_stopped (self : App) :
  well_formed self ->
  exists self',
    stop_animation self = Ok self' /\
    state_of self' = Stopped /\
    is_paused self' = false /\
    controls_stopped (controls self') /\
    plot_frame_packed self' = true /\
    equation_var self' = equation_var self /\
    sliders self' = sliders self /\
    (is_Some (active_animation self) ->
     animation self' = None /\
     (is_Some (current_frame self) -> current_frame self' = Some WindowClosed)) /\
    stop_animation self' = Ok self'.
Proof.
  intros Hwf. destruct (static_plot_for self Hwf) as [plot Hplot].
  exists (after_stop self plot).
  split; [apply stop_animation_eq; exact Hplot|].
  split; [unfold state_of; rewrite active_after_stop; reflexivity|].
  split; [reflexivity|]. split; [repeat split|]. split; [reflexivity|].
  split; [reflexivity|]. split; [reflexivity|]. split.
  - intros [p Hp]. unfold after_stop. rewrite Hp. cbn [animation current_frame].
    split; [reflexivity|]. intros [w ->]. reflexivity.
  - rewrite (stop_animation_eq _ plot); [rewrite after_stop_idem; reflexivity|].
    intros s' Heq Hsl. apply Hplot; assumption.
Qed.

Lemma stop_reaches_stopped_witness :
  exists started stopped,
    start_animation rose_app = Ok started /\
    state_of started = Running /\
    stop_animation started = Ok stopped /\
    state_of stopped = Stopped /\
    animation stopped = None /\
    stop_animation stopped = Ok stopped.
Proof.
  destruct (start_animation_eq rose_app rose_app_well_formed) as (f & a & _ & _ & _ & Hstart).
  eexists. 
  assert (Hwf : well_formed (after_start rose_app
                   (running_animation f 200 (100 - speed_var rose_app) 0 a))).
  { exact rose_app_well_formed. }
  destruct (stop_reaches_stopped _ Hwf)
    as (stopped & Hstop & Hst & _ & _ & _ & _ & _ & Hact & Hidem).
  exists stopped. split; [apply Hstart; reflexivity|].
  split; [reflexivity|]. split; [exact Hstop|]. split; [exact Hst|].
  split; [|exact Hidem]. apply Hact. eexists. reflexivity.
Defined.

(** Start then stop.  From a well-formed application whose window has a
    geometry, starting the animation and stopping it again returns the
    window to that geometry with the plot frame shown and the controls
    enabled, the animation dropped and its window closed; the static plot
    is the one a stop without the animation redraws. *)
Theorem start_stop_round_trip (self : App) :
  well_formed self ->
  root_geometry self <> "" ->
  exists started stopped direct,
    start_animation self = Ok started /\
    state_of started = Running /\
    root_geometry started = "400x500" /\
    plot_frame_packed started = false /\
    stop_animation started = Ok stopped /\
    stop_animation self = Ok direct /\
    state_of stopped = Stopped /\
    animation stopped = None /\
    current_frame stopped = Some WindowClosed /\
    root_geometry stopped = root_geometry self /\
    plot_frame_packed stopped = true /\
    controls stopped = controls direct /\
    fig stopped = fig direct /\
    equation_var stopped = equation_var self /\
    sliders stopped = sliders self.
Proof.
  intros Hwf Hgeo.
  destruct (start_animation_eq self Hwf) as (f & a & _ & _ & _ & Hstart).
  destruct (static_plot_for self Hwf) as [plot Hplot].
  eexists. eexists. exists (after_stop self plot).
  split; [apply Hstart; reflexivity|]. split; [reflexivity|].
  split; [reflexivity|]. split; [reflexivity|].
  split; [apply (stop_animation_eq _ plot); intros s' Heq Hsl; apply Hplot; assumption|].
  split; [apply stop_animation_eq; exact Hplot|].
  split; [unfold state_of; rewrite active_after_stop; reflexivity|].
  split; [reflexivity|]. split; [reflexivity|]. split.
  { unfold after_stop, after_start. cbn [original_geometry root_geometry].
    rewrite decide_False by exact Hgeo. reflexivity. }
  split; [reflexivity|]. split; [reflexivity|]. split; [reflexivity|].
  split; reflexivity.
Qed.

Lemma start_stop_round_trip_witness :
  exists started stopped,
    start_animation circle_app = Ok started /\
    stop_animation started = Ok stopped /\
    root_geometry stopped = "1400x800" /\
    animation stopped = None.
Proof.
  destruct (start_stop_round_trip circle_app circle_app_well_formed)
    as (started & stopped & direct & H1 & _ & _ & _ & H2 & _ & _ & H3 & _ & H4 & _).
  { cbn. string_ne. }
  exists started, stopped. auto.
Defined.

(** Pause button.  [toggle_pause] always returns.  On a Stopped
    application it does nothing at all; on a Running one it pauses and
    labels the button Resume; on a Paused one it resumes and labels the
    button Pause.  It never touches the frame index, the artists, the
    window, the selection or the static plot. *)
Theorem toggle_pause_transitions (self : App) :
  exists self',
    toggle_pause self = Ok self' /\
    (state_of self = Stopped -> self' = self) /\
    (state_of self = Running ->
     state_of self' = Paused /\ pause_button_text (controls self') = "Resume" /\
     event_source <$> animation self' = Some (Some false)) /\
    (state_of self = Paused ->
     state_of self' = Running /\ pause_button_text (controls self') = "Pause" /\
     event_source <$> animation self' = Some (Some true)) /\
    frame_seq <$> animation self' = frame_seq <$> animation self /\
    axes <$> animation self' = axes <$> animation self /\
    current_frame self' = current_frame self /\
    equation_var self' = equation_var self /\
    sliders self' = sliders self /\
    fig self' = fig self.
Proof.
  unfold toggle_pause, state_of.
  destruct (active_animation self) as [[ani running]|] eqn:Hact.
  - assert (Hani : animation self = Some ani).
    { unfold active_animation in Hact. destruct (animation self) as [x|]; [|discriminate].
      destruct (event_source x); [|discriminate]. congruence. }
    destruct (is_paused self); cbn [timer_start timer_stop mret result_ret];
      eexists; (split; [reflexivity|]); rewrite Hani;
      unfold active_animation; cbn;
      repeat split; intros; try discriminate; reflexivity.
  - exists self. cbn. repeat split; intros; try discriminate; reflexivity.
Qed.

(** Start from any state.  On a well-formed application, Stopped, Running
    or Paused, [start_animation] returns a Running application whose
    animation is a fresh one: 200 frames, interval [100 - speed], index 0,
    empty ray trail, of the total function the sliders define at that
    moment.  The window shrinks to the controls and remembers the geometry
    it had. *)
Theorem start_always_restarts (self : App) :
  well_formed self ->
  exists started f a,
    start_animation self = Ok started /\
    state_of started = Running /\
    animation started =
      Some (running_animation f 200 (100 - speed_var self) 0 a) /\
    rays_collection a = [] /\
    (forall theta,
       current_function (equation_var self) (sliders self) theta = Ok (f theta)) /\
    current_frame started = Some WindowOpen /\
    controls_running (controls started) /\
    plot_frame_packed started = false /\
    root_geometry started = "400x500" /\
    original_geometry started = root_geometry self /\
    equation_var started = equation_var self /\
    sliders started = sliders self.
Proof.
  intros Hwf.
  destruct (start_animation_eq self Hwf) as (f & a & Hrays & _ & Hf & Hstart).
  eexists. exists f, a. split; [apply Hstart; reflexivity|].
  split; [reflexivity|]. split; [reflexivity|]. split; [exact Hrays|].
  split; [exact Hf|]. repeat split.
Qed.

Lemma start_always_restarts_witness :
  exists running paused restarted f a,
    start_animation rose_app = Ok running /\
    toggle_pause running = Ok paused /\
    state_of paused = Paused /\
    start_animation paused = Ok restarted /\
    state_of restarted = Running /\
    animation restarted = Some (running_animation f 200 50 0 a).
Proof.
  destruct (start_animation_eq rose_app rose_app_well_formed)
    as (f0 & a0 & _ & _ & _ & Hstart).
  eexists. eexists.
  assert (Hwf : well_formed
            (toggled (after_start rose_app
                        (running_animation f0 200 (100 - speed_var rose_app) 0 a0))
                     (running_animation f0 200 (100 - speed_var rose_app) 0 a0)
                     false "Resume" true)).
  { exact rose_app_well_formed. }
  destruct (start_always_restarts _ Hwf)
    as (restarted & f & a & Hre & Hst & Hani & _).
  exists restarted, f, a.
  split; [apply Hstart; reflexivity|]. split; [reflexivity|].
  split; [reflexivity|]. split; [exact Hre|]. split; [exact Hst|exact Hani].
Defined.

(** Closing the animation window.  On a well-formed application the
    handler returns; with no active animation it changes nothing; with
    one, it leaves what [stop_animation] leaves except that it does not
    close the window itself (the user just did). *)
Theorem close_handler_stops (self : App) :
  well_formed self ->
  exists closed stopped,
    handle_animation_close self = Ok closed /\
    stop_animation self = Ok stopped /\
    (active_animation self = None -> closed = self) /\
    (is_Some (active_animation self) ->
     state_of closed = Stopped /\
     animation closed = None /\
     current_frame closed = current_frame self /\
     is_paused closed = false /\
     controls closed = controls stopped /\
     fig closed = fig stopped /\
     plot_frame_packed closed = true /\
     root_geometry closed = root_geometry stopped /\
     original_geometry closed = original_geometry stopped /\
     equation_var closed = equation_var self /\
     sliders closed = sliders self).
Proof.
  intros Hwf. destruct (static_plot_for self Hwf) as [plot Hplot].
  eexists. exists (after_stop self plot).
  split; [apply (handle_animation_close_eq _ plot); exact Hplot|].
  split; [apply stop_animation_eq; exact Hplot|].
  split.
  - intros ->. reflexivity.
  - intros [p Hp]. rewrite Hp. unfold after_stop. rewrite Hp.
    repeat split.
Qed.

Lemma close_handler_stops_witness :
  exists running closed,
    start_animation rose_app = Ok running /\
    handle_animation_close running = Ok closed /\
    state_of closed = Stopped /\
    current_frame closed = Some WindowOpen.
Proof.
  destruct (start_animation_eq rose_app rose_app_well_formed)
    as (f & a & _ & _ & _ & Hstart).
  eexists.
  assert (Hwf : well_formed (after_start rose_app
                   (running_animation f 200 (100 - speed_var rose_app) 0 a))).
  { exact rose_app_well_formed. }
  destruct (close_handler_stops _ Hwf) as (closed & stopped & Hc & _ & _ & Hact).
  exists closed. split; [apply Hstart; reflexivity|]. split; [exact Hc|].
  destruct Hact as (H1 & _ & H2 & _); [eexists; reflexivity|].
  split; [exact H1|exact H2].
Defined.

(** The label of the pause button.  [stop_animation] does not reset it:
    from a Running application, pause, stop and start again leave a
    Running animation whose pause button still reads Resume. *)
Theorem pause_label_survives_stop (self : App) (ani : FuncAnimation) :
  well_formed self ->
  animation self = Some ani ->
  event_source ani = Some true ->
  is_paused self = false ->
  exists paused stopped restarted,
    toggle_pause self = Ok paused /\
    stop_animation paused = Ok stopped /\
    pause_button_text (controls stopped) = "Resume" /\
    start_animation stopped = Ok restarted /\
    state_of restarted = Running /\
    pause_button_text (controls restarted) = "Resume".
Proof.
  intros Hwf Hani Hrun Hpaused.
  destruct (static_plot_for self Hwf) as [plot Hplot].
  destruct (start_animation_eq self Hwf) as (f & a & _ & _ & _ & Hstart).
  exists (toggled self ani false "Resume" true).
  eexists. eexists.
  split.
  { unfold toggle_pause, active_animation. rewrite Hani, Hrun, Hpaused. reflexivity. }
  split.
  { apply (stop_animation_eq _ plot). intros s' Heq Hsl. apply Hplot; assumption. }
  split; [reflexivity|].
  split; [apply Hstart; reflexivity|].
  split; reflexivity.
Qed.

Lemma pause_label_survives_stop_witness :
  exists running paused stopped restarted,
    start_animation circle_app = Ok running /\
    toggle_pause running = Ok paused /\
    stop_animation paused = Ok stopped /\
    start_animation stopped = Ok restarted /\
    state_of restarted = Running /\
    pause_button_text (controls restarted) = "Resume".
Proof.
  destruct (start_animation_eq circle_app circle_app_well_formed)
    as (f & a & _ & _ & _ & Hstart).
  eexists.
  assert (Hwf : well_formed (after_start circle_app
                   (running_animation f 200 (100 - speed_var circle_app) 0 a))).
  { exact circle_app_well_formed. }
  destruct (pause_label_survives_stop _ _ Hwf eq_refl eq_refl eq_refl)
    as (paused & stopped & restarted & H1 & H2 & _ & H3 & H4 & H5).
  exists paused, stopped, restarted.
  split; [apply Hstart; reflexivity|]. auto 10.
Defined.

(** ** Moving a coefficient scale *)

Lemma py_round_near x : IZR (py_round x) - 1 / 2 <= x <= IZR (py_round x) + 1 / 2.
Proof.
  pose proof (base_fp x) as [Hge Hlt].
  assert (Hx : x = IZR (Int_part x) + frac_part x) by (unfold frac_part; lra).
  unfold py_round.
  destruct (Rlt_dec (frac_part x) (1 / 2)) as [H1|H1]; [lra|].
  destruct (Rlt_dec (1 / 2) (frac_part x)) as [H2|H2]; [rewrite plus_IZR; lra|].
  destruct (Z.even (Int_part x)); [lra|rewrite plus_IZR; lra].
Qed.

Lemma py_round_range lo hi x :
  IZR lo <= x <= IZR hi -> (lo <= py_round x <= hi)%Z.
Proof.
  intros [Hlo Hhi]. pose proof (py_round_near x) as [H1 H2].
  split.
  - assert (IZR (lo - 1) < IZR (py_round x)) by (rewrite minus_IZR; lra).
    apply lt_IZR in H. lia.
  - assert (IZR (py_round x) < IZR (hi + 1)) by (rewrite plus_IZR; lra).
    apply lt_IZR in H. lia.
Qed.

(** An integer is its own rounding. *)
Lemma py_round_IZR z : py_round (IZR z) = z.
Proof.
  assert (H : IZR z <= IZR z <= IZR z) by lra.
  apply py_round_range in H. lia.
Qed.

(** The steps the registry declares: none, or the step 1 of the petal
    count of Rose, whose range is 1 to 10. *)
Lemma registry_steps name data c spec :
  assoc equations name = Ok data ->
  assoc (coefficients data) c = Ok spec ->
  coef_step spec = None \/
  (coef_step spec = Some 1 /\ coef_min spec = 1 /\ coef_max spec = 10).
Proof.
  unfold equations. cbn [assoc]. intros Hdata.
  repeat case_decide; try discriminate; injection Hdata as <-;
    cbn [coefficients assoc]; intros Hspec;
    repeat case_decide; try discriminate; injection Hspec as <-; cbn; auto.
Qed.

Lemma sliders_match_well_formed self : sliders_match self -> well_formed self.
Proof.
  intros (data & Hdata & Hkeys). unfold well_formed. rewrite Hdata.
  apply Forall_forall. intros c Hc. apply Hkeys.
  apply list_elem_of_fmap. exists c. auto.
Qed.

Lemma sliders_match_insert self name v :
  sliders_match self -> is_Some (sliders self !! name) ->
  sliders_match (with_sliders self (<[name := v]> (sliders self))).
Proof.
  intros (data & Hdata & Hkeys) Hname. exists data. split; [exact Hdata|].
  intros c. cbn [with_sliders sliders]. rewrite <- Hkeys.
  destruct (decide (name = c)) as [->|Hne].
  - rewrite lookup_insert_eq. split; [intros _; exact Hname|eauto].
  - rewrite lookup_insert_ne by exact Hne. reflexivity.
Qed.

(** Moving an existing scale returns and stores the value, rounded for a
    coefficient of step 1. *)
Lemma scale_moved_existing (self : App) (name : string) (value : R) :
  sliders_match self ->
  is_Some (sliders self !! name) ->
  exists self' data spec stored,
    assoc equations (equation_var self) = Ok data /\
    assoc (coefficients data) name = Ok spec /\
    scale_moved self name value = Ok self' /\
    sliders self' = <[name := stored]> (sliders self) /\
    (coef_step spec = None -> stored = value) /\
    (coef_step spec = Some 1 ->
     stored = IZR (py_round value) /\ Rabs (stored - value) <= 1 / 2) /\
    (coef_min spec <= value <= coef_max spec ->
     coef_min spec <= stored <= coef_max spec) /\
    sliders_match self' /\
    equation_var self' = equation_var self /\
    animation self' = animation self /\
    is_paused self' = is_paused self /\
    controls self' = controls self /\
    speed_var self' = speed_var self.
Proof.
  intros Hmatch Hname. pose proof Hmatch as (data & Hdata & Hkeys).
  destruct (assoc_registered (coefficients data) name) as [spec Hspec];
    [apply Hkeys; exact Hname|].
  set (stored := if Req_dec_T (default 0.1 (coef_step spec)) 1
                 then IZR (py_round value) else value).
  assert (Hm' : sliders_match (with_sliders self (<[name := stored]> (sliders self))))
    by (apply sliders_match_insert; assumption).
  destruct (update_static_plot_ok _ (sliders_match_well_formed _ Hm'))
    as (rs & lo & hi & _ & _ & _ & Hplot).
  assert (Hsm : scale_moved self name value =
                update_static_plot
                  (with_sliders self (<[name := stored]> (sliders self)))).
  { unfold scale_moved, update_coef_value.
    cbn [with_sliders equation_var sliders]. rewrite Hdata.
    cbn [mbind result_bind]. rewrite Hspec. cbn [mbind result_bind].
    unfold getitem. rewrite lookup_insert_eq. cbn [mbind result_bind].
    unfold stored.
    destruct (Req_dec_T (default 0.1 (coef_step spec)) 1) as [Hstep|Hstep];
      [|reflexivity].
    unfold with_sliders.
    cbn [sliders animation current_frame is_paused equation_var speed_var
         controls fig plot_frame_packed root_geometry original_geometry].
    rewrite insert_insert_eq. reflexivity. }
  eexists. exists data, spec, stored.
  split; [exact Hdata|]. split; [exact Hspec|].
  split; [rewrite Hsm; exact Hplot|].
  cbn [sliders with_sliders equation_var animation is_paused controls speed_var].
  split; [reflexivity|].
  destruct (registry_steps _ _ _ _ Hdata Hspec) as [Hnone|(Hone & Hmin & Hmax)].
  + assert (Hst : stored = value).
    { unfold stored. rewrite Hnone.
      destruct (Req_dec_T (default 0.1 None) 1) as [Hn|_]; [|reflexivity].
      exfalso. cbn in Hn. lra. }
    rewrite Hst. split; [reflexivity|]. split; [rewrite Hnone; discriminate|].
    split; [tauto|]. split; [rewrite <- Hst; exact Hm'|]. repeat split.
  + assert (Hst : stored = IZR (py_round value)).
    { unfold stored. rewrite Hone.
      destruct (Req_dec_T (default 0.1 (Some 1)) 1) as [_|Hn]; [reflexivity|].
      exfalso. apply Hn. reflexivity. }
    split; [rewrite Hone; discriminate|].
    pose proof (py_round_near value) as [H1 H2].
    split.
    { intros _. split; [exact Hst|]. rewrite Hst. apply Rabs_le. lra. }
    split.
    { rewrite Hmin, Hmax, Hst. intros Hrange.
      pose proof (py_round_range 1 10 value Hrange) as [Ha Hb].
      apply IZR_le in Ha, Hb. lra. }
    split; [exact Hm'|]. repeat split.
Qed.

(** Moving the scale of a coefficient.  On an application whose sliders
    are those of the selected equation, moving an existing scale returns:
    a coefficient without a step stores the value itself, the petal count
    (step 1) stores the nearest integer; a value inside the range the
    registry declares is stored inside that range; the other sliders, the
    selection and the animation are untouched.  A name that is not a
    coefficient of the selected equation raises [KeyError] for the name. *)
Theorem scale_moved_stores_in_range (self : App) (name : string) (value : R) :
  sliders_match self ->
  (is_Some (sliders self !! name) ->
   exists self' data spec stored,
     assoc equations (equation_var self) = Ok data /\
     assoc (coefficients data) name = Ok spec /\
     scale_moved self name value = Ok self' /\
     sliders self' = <[name := stored]> (sliders self) /\
     (coef_step spec = None -> stored = value) /\
     (coef_step spec = Some 1 ->
      stored = IZR (py_round value) /\ Rabs (stored - value) <= 1 / 2) /\
     (coef_min spec <= value <= coef_max spec ->
      coef_min spec <= stored <= coef_max spec) /\
     sliders_match self' /\
     equation_var self' = equation_var self /\
     animation self' = animation self /\
     is_paused self' = is_paused self /\
     controls self' = controls self /\
     speed_var self' = speed_var self) /\
  (sliders self !! name = None ->
   scale_moved self name value = Raise (KeyError name)).
Proof.
  intros Hmatch. pose proof Hmatch as (data & Hdata & Hkeys). split.
  - apply scale_moved_existing. exact Hmatch.
  - intros Hnone.
    assert (Hnot : name ∉ (coefficients data).*1).
    { intros Hin. apply Hkeys in Hin. rewrite Hnone in Hin. destruct Hin; discriminate. }
    unfold scale_moved, update_coef_value.
    cbn [with_sliders equation_var sliders]. rewrite Hdata.
    cbn [mbind result_bind]. rewrite (assoc_raise _ _ Hnot). reflexivity.
Qed.

Lemma rose_app_sliders_match : sliders_match rose_app.
Proof.
  eexists. split; [reflexivity|]. intros name.
  cbn [rose_app example_app sliders coefficients].
  rewrite list_elem_of_In. cbn [fmap list_fmap fst In].
  destruct (decide (name = "a")) as [->|Ha].
  - rewrite lookup_insert_eq. split; [auto|eauto].
  - rewrite lookup_insert_ne by congruence.
    destruct (decide (name = "n")) as [->|Hn].
    + rewrite lookup_singleton_eq. split; [auto|eauto].
    + rewrite lookup_singleton_ne by congruence.
      split; [intros [? ?]; discriminate|intros [?|[?|[]]]; congruence].
Qed.

Lemma scale_moved_stores_in_range_witness :
  exists self' stored,
    scale_moved rose_app "n" 2.5 = Ok self' /\
    sliders self' = <["n" := stored]> (sliders rose_app) /\
    stored = IZR (py_round 2.5) /\
    1 <= stored <= 10.
Proof.
  destruct (scale_moved_stores_in_range rose_app "n" 2.5 rose_app_sliders_match)
    as [H _].
  destruct H as (self' & data & spec & stored & Hdata & Hspec & Hmove & Hsl & _ &
                 Hint & Hrange & _).
  { cbn [rose_app example_app sliders].
    rewrite lookup_insert_ne by string_ne. rewrite lookup_singleton_eq. eauto. }
  exists self', stored. split; [exact Hmove|]. split; [exact Hsl|].
  change (assoc equations (equation_var rose_app)) with (assoc equations "Rose") in Hdata.
  unfold equations in Hdata. cbn [assoc] in Hdata.
  repeat (rewrite decide_False in Hdata by string_ne).
  rewrite decide_True in Hdata by reflexivity. injection Hdata as <-.
  cbn [coefficients assoc] in Hspec.
  rewrite decide_False in Hspec by string_ne.
  rewrite decide_True in Hspec by reflexivity. injection Hspec as <-.
  cbn [coef_step coef_min coef_max] in Hint, Hrange.
  split; [apply Hint; reflexivity|]. apply Hrange. lra.
Defined.

(** ** Every reachable state *)













(** ** Curves that need no remapping *)

Lemma normalize_loop_nonneg_id pts : forall ts rs,
  Forall (fun p : R * R => p.2 >= 0) pts ->
  normalize_loop pts ts rs = (ts ++ pts.*1, rs ++ pts.*2).
Proof.
  induction pts as [|[t r] pts IH]; intros ts rs Hall; cbn [normalize_loop].
  - rewrite !fmap_nil, !app_nil_r. reflexivity.
  - apply Forall_cons in Hall as [Hr Hall]. cbn [snd] in Hr.
    destruct (Rge_dec r 0) as [_|Hn]; [|contradiction].
    rewrite IH by exact Hall. rewrite !fmap_cons, <- !app_assoc. reflexivity.
Qed.

Lemma linspace_nonneg stop num :
  (2 <= num)%nat -> 0 <= stop -> Forall (fun t => 0 <= t) (linspace 0 stop num).
Proof.
  intros Hnum Hstop. apply Forall_lookup. intros k t Hk.
  assert (Hlt : (k < num)%nat).
  { apply lookup_lt_Some in Hk. rewrite linspace_length in Hk. exact Hk. }
  rewrite linspace_lookup in Hk by exact Hlt. injection Hk as <-.
  assert (0 < INR (num - 1)) by (apply lt_0_INR; lia).
  pose proof (pos_INR k).
  assert (0 <= (stop - 0) / INR (num - 1)).
  { apply Rmult_le_pos; [lra|]. left. apply Rinv_0_lt_compat. assumption. }
  nra.
Qed.

Lemma nonneg_samples_zip (f : pyfun) (thetas rs : list R) :
  mapM f thetas = Ok rs ->
  Forall (fun t => 0 <= t) thetas ->
  (forall theta, 0 <= theta -> exists r, f theta = Ok r /\ 0 <= r) ->
  Forall (fun p : R * R => p.2 >= 0) (zip thetas rs) /\
  (zip thetas rs).*1 = thetas /\ (zip thetas rs).*2 = rs.
Proof.
  intros Hrs Hpos Hf. destruct (mapM_result_lookup _ _ _ Hrs) as [Hlen Hlk].
  split; [|split; [apply fst_zip; lia|apply snd_zip; lia]].
  apply Forall_lookup. intros k [t r] Hk.
  apply lookup_zip_with_Some in Hk as (t' & r' & [= <- <-] & Ht & Hr).
  destruct (Hlk k t Ht) as (r0 & Hr0 & Hrk).
  rewrite Forall_lookup in Hpos.
  destruct (Hf t (Hpos k t Ht)) as (r1 & Hr1 & Hge).
  cbn [snd]. assert (r = r1) by congruence. subst. lra.
Qed.

(** A curve whose radius is never negative on the sampled angles is
    plotted as sampled: the static plot and the traced curve hold the
    sampled angles themselves with the radii the function returns, and the
    hollow marker stays empty.  Circle, Cardioid and Spiral with a
    coefficient [a >= 0] are such curves, and so is Limacon when
    [0 <= b <= a]: with the ranges of the scales only Rose, and Limacon
    with [b > a], are ever remapped. *)
Theorem nonnegative_curve_not_remapped :
  (forall self : App,
     well_formed self ->
     (forall theta, 0 <= theta ->
        exists r, current_function (equation_var self) (sliders self) theta = Ok r /\
                  0 <= r) ->
     exists self' plot rs,
       update_static_plot self = Ok self' /\
       fig self' = Some plot /\
       mapM (current_function (equation_var self) (sliders self))
            (linspace 0 (2 * PI) 1000) = Ok rs /\
       static_curve plot = (linspace 0 (2 * PI) 1000, rs)) /\
  (forall (f : R -> R) (frames i : nat) (a : Artists),
     (0 < frames)%nat ->
     (forall theta, 0 <= theta -> 0 <= f theta) ->
     exists a',
       animate (pure_fn f) frames i a = Ok a' /\
       point a' = ([frame_theta frames i], [f (frame_theta frames i)]) /\
       opposite_point a' = ([], []) /\
       drawn_curve a' =
         (linspace 0 (frame_theta frames i) 100,
          f <$> linspace 0 (frame_theta frames i) 100)) /\
  (forall (name : string) (coef_values : gmap string R) (a theta : R),
     coef_values !! "a" = Some a ->
     0 <= a -> 0 <= theta ->
     name = "Circle" \/ name = "Cardioid" \/ name = "Spiral" \/
     (name = "Limacon" /\ exists b, coef_values !! "b" = Some b /\ 0 <= b <= a) ->
     exists r, current_function name coef_values theta = Ok r /\ 0 <= r).
Proof.
  split; [|split].
  - intros self Hwf Hf.
    destruct (update_static_plot_ok self Hwf) as (rs & lo & hi & Hrs & _ & _ & Hplot).
    eexists. eexists. exists rs. split; [exact Hplot|]. split; [reflexivity|].
    split; [exact Hrs|]. cbn [static_curve].
    pose proof PI_RGT_0.
    destruct (nonneg_samples_zip _ _ _ Hrs (linspace_nonneg (2 * PI) 1000 ltac:(lia) ltac:(lra)) Hf)
      as (Hall & H1 & H2).
    rewrite (normalize_loop_nonneg_id _ [] [] Hall), H1, H2. reflexivity.
  - intros f frames i a Hframes Hf.
    destruct (animate_pure_fn f frames i a)
      as (a' & Ha & _ & _ & _ & _ & _ & _ & Hpt & Hcurve).
    assert (Htheta : 0 <= frame_theta frames i).
    { unfold frame_theta. pose proof PI_RGT_0. pose proof (pos_INR i).
      assert (0 < INR frames) by (apply lt_0_INR; exact Hframes).
      apply Rmult_le_pos; [nra|]. left. apply Rinv_0_lt_compat. assumption. }
    exists a'. split; [exact Ha|].
    destruct (Rge_dec (f (frame_theta frames i)) 0) as [_|Hn];
      [|exfalso; apply Hn; apply Rle_ge; apply Hf; exact Htheta].
    injection Hpt as -> ->. split; [reflexivity|]. split; [reflexivity|].
    rewrite Hcurve.
    destruct (nonneg_samples_zip (pure_fn f) (linspace 0 (frame_theta frames i) 100)
                (f <$> linspace 0 (frame_theta frames i) 100))
      as (Hall & H1 & H2).
    + apply mapM_pure_fn.
    + apply linspace_nonneg; [lia|exact Htheta].
    + intros theta Hth. exists (f theta). split; [reflexivity|auto].
    + rewrite (normalize_loop_nonneg_id _ [] [] Hall), H1, H2. reflexivity.
  - intros name coef_values a theta Ha Hpos Hth Hname.
    unfold current_function, getitem.
    destruct Hname as [->|[->|[->|[-> (b & Hb & Hb0 & Hba)]]]];
      repeat (rewrite decide_False by string_ne);
      rewrite decide_True by reflexivity; rewrite Ha; cbn [mbind result_bind mret result_ret].
    + eauto.
    + eexists. split; [reflexivity|]. pose proof (COS_bound theta) as [Hc _]. nra.
    + eexists. split; [reflexivity|]. nra.
    + rewrite Hb. cbn [mbind result_bind mret result_ret].
      eexists. split; [reflexivity|]. pose proof (COS_bound theta) as [Hc _]. nra.
Qed.

Lemma nonnegative_curve_not_remapped_witness :
  exists self' plot rs,
    update_static_plot circle_app = Ok self' /\
    fig self' = Some plot /\
    static_curve plot = (linspace 0 (2 * PI) 1000, rs).
Proof.
  destruct nonnegative_curve_not_remapped as (Hstatic & _ & Hfam).
  destruct (Hstatic circle_app circle_app_well_formed)
    as (self' & plot & rs & H1 & H2 & _ & H3).
  { intros theta Hth.
    apply (Hfam "Circle" (sliders circle_app) 2 theta);
      [apply lookup_singleton_eq|lra|exact Hth|auto]. }
  exists self', plot, rs. auto.
Defined.
